(** * Verification of [scripts.py]: scrape, unify, clean, publish.

    A shallow embedding of the pipeline of [src/scripts.py] and the
    properties of its specification.

    Python strings are sequences of Unicode code points, so a string is a
    list of code points.  The regular expressions of the source are kept
    as syntax trees and run by a backtracking matcher that follows the
    search order of Python's [re] module (leftmost start, greedy or lazy
    repetition, first alternative that lets the rest of the pattern
    succeed).  Floats are IEEE 754 binary64 values ([spec_float] with
    precision 53 and maximal exponent 1024). *)

From Stdlib Require Import List Bool Arith ZArith NArith Lia String Ascii.
From Stdlib Require Import Floats.SpecFloat.
Import ListNotations.

Set Implicit Arguments.
Local Open Scope N_scope.

(** ** Strings *)

Module Str.

(** A character is a Unicode code point. *)
Definition char := N.
Definition str := list char.

Definition char_eqb (a b : char) : bool := N.eqb a b.

(** The code points of an ASCII literal. *)
Fixpoint of_string (s : string) : str :=
  match s with
  | EmptyString => []
  | String c s' => N_of_ascii c :: of_string s'
  end.

Definition NL : char := 10.
Definition LBRACKET : char := 91.
Definition RBRACKET : char := 93.
Definition COMMA : char := 44.
Definition DOT : char := 46.
Definition SPACE : char := 32.

(** [str.isspace] on one code point; also [\s] for a [str] pattern. *)
Definition is_space (c : char) : bool :=
  ((9 <=? c) && (c <=? 13)) || ((28 <=? c) && (c <=? 32))
  || (c =? 133) || (c =? 160) || (c =? 5760)
  || ((8192 <=? c) && (c <=? 8202))
  || (c =? 8232) || (c =? 8233) || (c =? 8239) || (c =? 8287)
  || (c =? 12288).

(** [[0-9]] *)
Definition is_digit09 (c : char) : bool := (48 <=? c) && (c <=? 57).

(** [.] without DOTALL: any character but a newline. *)
Definition is_dot (c : char) : bool := negb (c =? NL).

Fixpoint lstrip (s : str) : str :=
  match s with
  | c :: s' => if is_space c then lstrip s' else s
  | [] => []
  end.

Definition rstrip (s : str) : str := rev (lstrip (rev s)).

(** [s.strip()] *)
Definition strip (s : str) : str := rstrip (lstrip s).

(** [s.replace(',', '')]: every occurrence of one character removed. *)
Definition remove_char (c : char) (s : str) : str :=
  filter (fun x => negb (char_eqb x c)) s.

Fixpoint str_eqb (a b : str) : bool :=
  match a, b with
  | [], [] => true
  | x :: a', y :: b' => char_eqb x y && str_eqb a' b'
  | _, _ => false
  end.

End Str.
Import Str.

(** ** Regular expressions *)

Module Re.

(** The fragment of [re] syntax the source uses.  Repetition is over a
    single character class, which is all the source's patterns need:
    [Rep g lo p] is [p{lo,}] when [g] and [p{lo,}?] otherwise. *)
Inductive regex : Type :=
| Class (p : char -> bool)
| Seq (r1 r2 : regex)
| Opt (r : regex)
| Rep (greedy : bool) (lo : nat) (p : char -> bool)
| Grp (r : regex)
| Eps
| Bol
| Eol.

Definition Chr (c : char) : regex := Class (char_eqb c).

(** A literal text: its characters in sequence. *)
Fixpoint Lit (s : str) : regex :=
  match s with
  | [] => Eps
  | c :: s' => Seq (Chr c) (Lit s')
  end.

Definition orelse {A} (x y : option A) : option A :=
  match x with Some _ => x | None => y end.

Section Matcher.
Variable R : Type.

  (** The continuation receives: whether the position is still the start
      of the string, the rest of the input, and the text of group 1. *)
Definition cont := bool -> str -> option str -> option R.

  (** [p{lo,}] from the current position.  Greedy: take one more
      character first and give it back only when the rest fails. Lazy:
      stop as soon as allowed and take more only when the rest fails. *)
Fixpoint rep (g : bool) (p : char -> bool) (lo : nat)
           (bos : bool) (s : str) (cap : option str) (k : cont) : option R :=
    let stop := match lo with O => k bos s cap | S _ => None end in
    let more := match s with
                | c :: s' => if p c then rep g p (pred lo) false s' cap k
                             else None
                | [] => None
                end in
    if g then orelse more stop else orelse stop more.

Fixpoint rmatch (r : regex) (bos : bool) (s : str) (cap : option str)
           (k : cont) : option R :=
    match r with
    | Class p =>
        match s with
        | c :: s' => if p c then k false s' cap else None
        | [] => None
        end
    | Seq r1 r2 => rmatch r1 bos s cap (fun b s' c => rmatch r2 b s' c k)
    | Opt r1 => orelse (rmatch r1 bos s cap k) (k bos s cap)
    | Rep g lo p => rep g p lo bos s cap k
    | Grp r1 =>
        rmatch r1 bos s cap
          (fun b s' _ => k b s' (Some (firstn (List.length s - List.length s') s)))
    | Eps => k bos s cap
    | Bol => if bos then k bos s cap else None
    | Eol =>
        match s with
        | [] => k bos s cap
        | [c] => if c =? NL then k bos s cap else None
        | _ => None
        end
    end.
End Matcher.

(** A match at the current position: the number of characters matched
    and the text of group 1. *)
Definition match_here (r : regex) (bos : bool) (s : str)
  : option (nat * option str) :=
  rmatch r bos s None
    (fun _ s' cap => Some ((List.length s - List.length s')%nat, cap)).

(** [re.search(r, s)]: the leftmost position with a match. The result is
    the text before the match, the match length and group 1. *)
Fixpoint search_from (r : regex) (bos : bool) (s : str)
  : option (str * nat * option str) :=
  match match_here r bos s with
  | Some (n, cap) => Some ([], n, cap)
  | None =>
      match s with
      | [] => None
      | c :: s' =>
          match search_from r false s' with
          | Some (pre, n, cap) => Some (c :: pre, n, cap)
          | None => None
          end
      end
  end.

Definition search (r : regex) (s : str) := search_from r true s.

(** [m.group(1)] of [re.search(r, s)]. *)
Definition search_group1 (r : regex) (s : str) : option str :=
  match search r s with
  | Some (_, _, Some g) => Some g
  | _ => None
  end.

(** [re.sub(r, repl, s)] for a literal replacement: the non-overlapping
    matches from the left are replaced.  [skip] counts the characters of
    the current match still to be dropped.  An empty match inserts the
    replacement and copies the next character; no pattern of the source
    matches the empty string, so that case does not arise for them. *)
Fixpoint sub_from (r : regex) (repl : str) (bos : bool) (s : str)
         (skip : nat) : str :=
  match skip with
  | S n =>
      match s with
      | [] => []
      | _ :: s' => sub_from r repl false s' n
      end
  | O =>
      match match_here r bos s with
      | Some (S n, _) =>
          repl ++ match s with
                  | [] => []
                  | _ :: s' => sub_from r repl false s' n
                  end
      | Some (O, _) =>
          repl ++ match s with
                  | [] => []
                  | c :: s' => c :: sub_from r repl false s' O
                  end
      | None =>
          match s with
          | [] => []
          | c :: s' => c :: sub_from r repl false s' O
          end
      end
  end.

Definition sub (r : regex) (repl : str) (s : str) : str :=
  sub_from r repl true s O.

End Re.
Import Re.

(** ** The patterns of the source *)

(** [\[.*?\]] *)
Definition RE_BRACKET : regex :=
  Seq (Chr LBRACKET) (Seq (Rep false 0 is_dot) (Chr RBRACKET)).

(** The three characters of the mis-encoded dagger, U+00E2 U+20AC U+00A0. *)
Definition DAGGER : str := [226; 8364; 160].

Definition RE_DAGGER : regex := Lit DAGGER.

(** [([0-9]+(?:\.[0-9]+)?)]: group 1 around an unsigned decimal numeral. *)
Definition NUMERAL : regex :=
  Seq (Rep true 1 is_digit09)
      (Opt (Seq (Chr DOT) (Rep true 1 is_digit09))).

(** [([0-9]+(?:\.[0-9]+)?)\s*million] *)
Definition RE_MILLION : regex :=
  Seq (Grp NUMERAL) (Seq (Rep true 0 is_space) (Lit (of_string "million"))).

(** [([0-9]{4,})] *)
Definition RE_DIGITS4 : regex := Grp (Rep true 4 is_digit09).

(** [^([0-9]+(?:\.[0-9]+)?)$] *)
Definition RE_NUMBER_ONLY : regex := Seq Bol (Seq (Grp NUMERAL) Eol).

(** [\s+] *)
Definition RE_SPACES : regex := Rep true 1 is_space.

(** ** Exceptions

    A Python call either returns or raises. *)

Inductive exn : Type :=
| ValueError
| TypeError
| IndexError
| OverflowError
| KeyError (key : str)
| TopicAlreadyExistsError
(** any other exception of a library or of the network *)
| OtherError (tag : nat).

Inductive res (A : Type) : Type :=
| Ok (a : A)
| Raise (e : exn).
Arguments Ok {A} a.
Arguments Raise {A} e.

Definition bind {A B} (m : res A) (f : A -> res B) : res B :=
  match m with
  | Ok a => f a
  | Raise e => Raise e
  end.

(** [try: m  except: h] for a bare [except]. *)
Definition try_except {A} (m : res A) (h : res A) : res A :=
  match m with
  | Ok a => Ok a
  | Raise _ => h
  end.

Notation "x <- m ;; f" := (bind m (fun x => f))
  (at level 61, m at next level, right associativity).

(** ** Floats *)

Module Float.

Definition float := spec_float.

Definition prec : Z := 53.
Definition emax : Z := 1024.

(** The binary64 value nearest to [n / d] (ties to even; infinite on
    overflow).  [SFdiv] divides the two integers exactly before rounding
    once. *)
Definition of_ratio (n : N) (d : positive) : float :=
  match n with
  | N0 => S754_zero false
  | Npos p => SFdiv prec emax (S754_finite false p 0) (S754_finite false d 0)
  end.

Definition of_N (n : N) : float := of_ratio n 1.

(** The binary64 value nearest to an integer. *)
Definition of_Z (z : Z) : float :=
  let f := of_N (Z.abs_N z) in
  if (z <? 0)%Z then SFopp f else f.

(** [x / y] *)
Definition div (x y : float) : float := SFdiv prec emax x y.

(** [x > y] *)
Definition gtb (x y : float) : bool := SFltb y x.

Definition is_nan (x : float) : bool :=
  match x with S754_nan => true | _ => false end.


End Float.

(** The value of a string of [[0-9]] digits read in base ten. *)
Fixpoint digits_value (acc : N) (s : str) : N :=
  match s with
  | [] => acc
  | c :: s' => digits_value (10 * acc + (c - 48)) s'
  end.

Fixpoint take_while (p : char -> bool) (s : str) : str :=
  match s with
  | c :: s' => if p c then c :: take_while p s' else []
  | [] => []
  end.

Fixpoint drop_while (p : char -> bool) (s : str) : str :=
  match s with
  | c :: s' => if p c then drop_while p s' else s
  | [] => []
  end.

(** [float(t)] for a text [t] of the form the source passes to it, digits
    with an optional fraction ([12], [12.5]): the correctly rounded value
    of the numeral.  Any other text is answered with [ValueError].
    (Python's [float] accepts more forms, signs and exponents among
    them, but the captured groups never have them: [py_float_numeral]
    shows that the modelled form covers every call of the source.) *)
Definition py_float (t : str) : res Float.float :=
  let ip := take_while is_digit09 t in
  match ip, drop_while is_digit09 t with
  | _ :: _, [] => Ok (Float.of_N (digits_value 0 ip))
  | _ :: _, c :: fr =>
      if (c =? DOT) && forallb is_digit09 fr
         && negb (Nat.eqb (List.length fr) 0)
      then Ok (Float.of_ratio (digits_value 0 (ip ++ fr))
                              (Pos.pow 10 (Pos.of_nat (List.length fr))))
      else Raise ValueError
  | [], _ => Raise ValueError
  end.

Definition F_MILLION : Float.float := Float.of_N 1000000.
Definition F_100 : Float.float := Float.of_N 100.

(** ** What the Python runtime supplies

    Case mapping, the decimal digits of Unicode and the printing of
    floats are tables and algorithms of the interpreter, not of this
    program.  They are taken as an interface; the facts listed are the
    ones CPython guarantees on ASCII text. *)

Definition is_ascii (c : char) : bool := c <? 128.

Definition ascii_lower (c : char) : char :=
  if (65 <=? c) && (c <=? 90) then c + 32 else c.

Class Runtime : Type := {
  (** [s.lower()] *)
  str_lower : str -> str;
  (** the digit value of a character [\d] matches, as [int] reads it *)
  uni_decimal : char -> option N;
  (** [str(x)] for a float [x] *)
  float_str : Float.float -> str;
  str_lower_ascii :
    forall s, forallb is_ascii s = true -> str_lower s = map ascii_lower s;
  uni_decimal_ascii :
    forall c, is_ascii c = true ->
      uni_decimal c = if is_digit09 c then Some (c - 48) else None;
  uni_decimal_range :
    forall c d, uni_decimal c = Some d -> d <= 9
}.

(** The interface is inhabited: the runtime that knows ASCII only. *)
Definition ascii_decimal (c : char) : option N :=
  if is_digit09 c then Some (c - 48) else None.

Lemma ascii_decimal_range c d : ascii_decimal c = Some d -> d <= 9.
Proof.
  unfold ascii_decimal, is_digit09.
  destruct (48 <=? c) eqn:E1; destruct (c <=? 57) eqn:E2; simpl;
    try discriminate.
  intros H. inversion H; subst.
  apply N.leb_le in E1, E2. lia.
Qed.

Definition ascii_runtime : Runtime := {|
  str_lower := map ascii_lower;
  uni_decimal := ascii_decimal;
  float_str := fun _ => [];
  str_lower_ascii := fun s _ => eq_refl;
  uni_decimal_ascii := fun c _ => eq_refl;
  uni_decimal_range := ascii_decimal_range
|}.

(** [\d] *)
Definition is_udigit `{Runtime} (c : char) : bool :=
  match uni_decimal c with Some _ => true | None => false end.

(** [(\d{4})] *)
Definition RE_YEAR `{Runtime} : regex :=
  Grp (Seq (Class is_udigit) (Seq (Class is_udigit)
        (Seq (Class is_udigit) (Class is_udigit)))).

(** ** Cell values *)

(** What a cell of a data frame holds: [None], a string, an integer or a
    float; NaN is the float [S754_nan]. *)
Inductive value : Type :=
| VNone
| VStr (s : str)
| VInt (z : Z)
| VFloat (f : Float.float).

(** [pd.isna(v)] on one cell *)
Definition isna (v : value) : bool :=
  match v with
  | VNone => true
  | VFloat f => Float.is_nan f
  | _ => false
  end.

Definition digit_char (d : N) : char := 48 + d.

Fixpoint uint_str (u : Decimal.uint) : str :=
  match u with
  | Decimal.Nil => []
  | Decimal.D0 u' => digit_char 0 :: uint_str u'
  | Decimal.D1 u' => digit_char 1 :: uint_str u'
  | Decimal.D2 u' => digit_char 2 :: uint_str u'
  | Decimal.D3 u' => digit_char 3 :: uint_str u'
  | Decimal.D4 u' => digit_char 4 :: uint_str u'
  | Decimal.D5 u' => digit_char 5 :: uint_str u'
  | Decimal.D6 u' => digit_char 6 :: uint_str u'
  | Decimal.D7 u' => digit_char 7 :: uint_str u'
  | Decimal.D8 u' => digit_char 8 :: uint_str u'
  | Decimal.D9 u' => digit_char 9 :: uint_str u'
  end.

(** [str(z)] for an integer *)
Definition int_str (z : Z) : str :=
  match Z.to_int z with
  | Decimal.Pos u => uint_str u
  | Decimal.Neg u => 45 :: uint_str u
  end.

(** [str(v)] *)
Definition py_str `{Runtime} (v : value) : str :=
  match v with
  | VNone => of_string "None"
  | VStr s => s
  | VInt z => int_str z
  | VFloat f => float_str f
  end.

(** ** The cleaning helpers of the source *)

Section Helpers.
Context `{RT : Runtime}.

  (** The part of [remove_bracket_refs] after the missing-value test. *)
Definition strip_refs (s : str) : str :=
    let s := Re.sub RE_BRACKET [] s in
    let s := Re.sub RE_DAGGER [] s in
    strip s.

Definition remove_bracket_refs (v : value) : value :=
    if isna v then v else VStr (strip_refs (py_str v)).

  (** The string the three searches of [parse_viewers] run on. *)
Definition viewers_text (v : value) : str :=
    let s := str_lower (py_str v) in
    let s := py_str (remove_bracket_refs (VStr s)) in
    strip (remove_char COMMA s).

Definition parse_viewers (val : value) : res (option Float.float) :=
    if isna val then Ok None else
    let s := viewers_text val in
    match search_group1 RE_MILLION s with
    | Some g =>
        try_except (x <- py_float g ;; Ok (Some x)) (Ok None)
    | None =>
        match search_group1 RE_DIGITS4 s with
        | Some g =>
            try_except
              (n <- py_float g ;; Ok (Some (Float.div n F_MILLION)))
              (Ok None)
        | None =>
            match search_group1 RE_NUMBER_ONLY s with
            | Some g =>
                try_except
                  (v <- py_float g ;;
                   if Float.gtb v F_100
                   then Ok (Some (Float.div v F_MILLION))
                   else Ok (Some v))
                  (Ok None)
            | None => Ok None
            end
        end
    end.

  (** [int(t)] for a text of decimal digits; any other character raises. *)
Fixpoint py_int (acc : N) (t : str) : res Z :=
    match t with
    | [] => Ok (Z.of_N acc)
    | c :: t' =>
        match uni_decimal c with
        | Some d => py_int (10 * acc + d) t'
        | None => Raise ValueError
        end
    end.

Definition extract_year (date_str : value) : res (option Z) :=
    if isna date_str then Ok None else
    let s := py_str (remove_bracket_refs (VStr (py_str date_str))) in
    match search_group1 RE_YEAR s with
    | Some g => y <- py_int 0 g ;; Ok (Some y)
    | None => Ok None
    end.
End Helpers.

(** ** Dictionaries

    A Python [dict] keeps its keys in insertion order and the unifier
    scans a row in that order, so a dictionary is an association list
    without repeated keys. *)

Module Dict.

Definition dict (V : Type) := list (str * V).

Fixpoint get {V} (d : dict V) (k : str) : option V :=
  match d with
  | [] => None
  | (k', v) :: d' => if str_eqb k' k then Some v else get d' k
  end.

(** [d[k] = v]: a known key keeps its place, a new one goes last. *)
Fixpoint set {V} (d : dict V) (k : str) (v : V) : dict V :=
  match d with
  | [] => [(k, v)]
  | (k', v') :: d' =>
      if str_eqb k' k then (k', v) :: d' else (k', v') :: set d' k v
  end.

(** [dict(items)] *)
Definition of_items {V} (items : list (str * V)) : dict V :=
  fold_left (fun d kv => set d (fst kv) (snd kv)) items [].

Definition keys {V} (d : dict V) : list str := map fst d.

End Dict.

(** ** Data frames *)

Definition NaN : value := VFloat S754_nan.

(** A frame: the column labels and the rows, each row holding one cell
    per column.  The row index is positional. *)
Record DataFrame : Type := {
  columns : list str;
  rows : list (list value)
}.

Fixpoint index_of (c : str) (cols : list str) : option nat :=
  match cols with
  | [] => None
  | c' :: cols' =>
      if str_eqb c' c then Some O
      else option_map S (index_of c cols')
  end.

(** [c in df.columns] *)
Definition has_col (df : DataFrame) (c : str) : bool :=
  match index_of c (columns df) with Some _ => true | None => false end.

Definition cell (i : nat) (row : list value) : value := nth i row NaN.

(** [df[c]]: the column as a list of cells; [KeyError] without it. *)
Definition col_get (df : DataFrame) (c : str) : res (list value) :=
  match index_of c (columns df) with
  | Some i => Ok (map (cell i) (rows df))
  | None => Raise (KeyError c)
  end.

Fixpoint list_set {A} (l : list A) (i : nat) (x : A) : list A :=
  match l, i with
  | [], _ => []
  | _ :: l', O => x :: l'
  | y :: l', S i' => y :: list_set l' i' x
  end.

(** [df[c] = vals]: an existing column is replaced, a new one is added
    last.  [vals] has one cell per row. *)
Definition col_set (df : DataFrame) (c : str) (vals : list value)
  : DataFrame :=
  match index_of c (columns df) with
  | Some i =>
      {| columns := columns df;
         rows := map (fun rv => list_set (fst rv) i (snd rv))
                     (combine (rows df) vals) |}
  | None =>
      {| columns := columns df ++ [c];
         rows := map (fun rv => fst rv ++ [snd rv])
                     (combine (rows df) vals) |}
  end.

(** [df[mask]] for a boolean mask with one entry per row. *)
Definition mask_rows (df : DataFrame) (m : list bool) : DataFrame :=
  {| columns := columns df;
     rows := map fst (filter snd (combine (rows df) m)) |}.

(** *** The type of a column

    A column that pandas builds from Python values, as
    [pd.DataFrame(records)] and [Series.apply] do, gets one type for
    all its cells.  A string among the values keeps them as they are,
    and so does an integer outside the range of [int64].  Otherwise a
    float among them makes a column of floats, and so do integers with
    a [None] among them: an integer becomes the float nearest to it and
    [None] becomes NaN.  Integers alone stay integers and [None] alone
    stays [None]. *)

Definition is_str (v : value) : bool :=
  match v with VStr _ => true | _ => false end.

Definition is_none (v : value) : bool :=
  match v with VNone => true | _ => false end.

Definition is_int (v : value) : bool :=
  match v with VInt _ => true | _ => false end.

(** A float, NaN included. *)
Definition is_float (v : value) : bool :=
  match v with VFloat _ => true | _ => false end.

Definition fits_int64 (v : value) : bool :=
  match v with
  | VInt z => ((- 2 ^ 63 <=? z) && (z <? 2 ^ 63))%Z
  | _ => true
  end.

(** Whether the values make a column of floats. *)
Definition as_floats (vs : list value) : bool :=
  negb (existsb is_str vs) && forallb fits_int64 vs
  && (existsb is_float vs || (existsb is_int vs && existsb is_none vs)).

Definition to_float (v : value) : value :=
  match v with
  | VNone => NaN
  | VInt z => VFloat (Float.of_Z z)
  | _ => v
  end.

(** One cell in the type of its column. *)
Definition as_dtype (floats : bool) (v : value) : value :=
  if floats then to_float v else v.

(** The cells of the column built from the values [vs]. *)
Definition infer_objects (vs : list value) : list value :=
  map (as_dtype (as_floats vs)) vs.

(** [series.apply(f)] for an [f] that may raise: the values returned,
    before the column is built from them. *)
Fixpoint series_apply {A} (f : value -> res A) (col : list value)
  : res (list A) :=
  match col with
  | [] => Ok []
  | v :: col' =>
      x <- f v ;;
      xs <- series_apply f col' ;;
      Ok (x :: xs)
  end.

(** A method of the [.str] accessor: cells that are not strings give NaN. *)
Definition str_method (f : str -> str) (v : value) : value :=
  match v with
  | VStr s => VStr (f s)
  | _ => NaN
  end.

(** The labels of [pd.DataFrame(records)]: the keys of the records in
    the order they are first met. *)
Definition record_columns (recs : list (Dict.dict value)) : list str :=
  fold_left
    (fun cols r =>
       fold_left
         (fun cols k => if existsb (str_eqb k) cols then cols
                        else cols ++ [k])
         (Dict.keys r) cols)
    recs [].

(** The value a record gives for a label; a key the record lacks gives
    NaN. *)
Definition record_field (r : Dict.dict value) (c : str) : value :=
  match Dict.get r c with
  | Some v => v
  | None => NaN
  end.

(** [pd.DataFrame(records)] for a list of dictionaries: under each label
    the column built from the values of the records. *)
Definition DataFrame_of_records (recs : list (Dict.dict value))
  : DataFrame :=
  let cols := record_columns recs in
  let floats c := as_floats (map (fun r => record_field r c) recs) in
  {| columns := cols;
     rows := map (fun r =>
                    map (fun c => as_dtype (floats c) (record_field r c))
                        cols) recs |}.

(** [row.to_dict()] for a row of [df.iterrows()]. *)
Definition row_dict (df : DataFrame) (row : list value) : Dict.dict value :=
  Dict.of_items (combine (columns df) row).

(** ** The unifier *)

Definition S_TITLE : str := of_string "title".
Definition S_DATE : str := of_string "date".
Definition S_VIEWERS : str := of_string "viewers".
Definition S_NETWORK : str := of_string "network".
Definition S_TITLE_CLEAN : str := of_string "title_clean".
Definition S_VIEWERS_MILLIONS : str := of_string "viewers_millions".
Definition S_YEAR : str := of_string "year".
Definition S_SOURCE_INDEX : str := of_string "_source_table_index".

Section Unifier.
Context `{RT : Runtime}.

  (** [a or b] on the results of [keys.get]: [None] and the empty
      string are false. *)
Definition py_or (a b : option str) : option str :=
    match a with
    | Some (_ :: _) => a
    | _ => b
    end.

  (** [{k.lower(): k for k in rowdict.keys()}] *)
Definition lower_keys (rowdict : Dict.dict value) : Dict.dict str :=
    fold_left (fun d k => Dict.set d (str_lower k) k) (Dict.keys rowdict) [].

  (** [rowdict.get(key, None)] where [key] may be [None]. *)
Definition row_get (rowdict : Dict.dict value) (key : option str) : value :=
    match key with
    | Some k => match Dict.get rowdict k with Some v => v | None => VNone end
    | None => VNone
    end.

Definition TITLE_KEYS : list str :=
    map of_string
        ["show"; "programme"; "program"; "broadcast"; "episode"; "title"]%string.

Definition VIEWERS_KEYS : list str :=
    map of_string
        ["viewers"; "number of viewers"; "number of viewers (millions)";
         "number of viewers (millions)"]%string.

Definition NETWORK_KEYS : list str :=
    map of_string ["network"; "channel"]%string.

  (** [keys.get(c1) or keys.get(c2) or ...] *)
Fixpoint first_key (keys : Dict.dict str) (cands : list str) : option str :=
    match cands with
    | [] => None
    | [c] => Dict.get keys c
    | c :: cands' => py_or (Dict.get keys c) (first_key keys cands')
    end.

  (** The [for k in rowdict] loop: the first cell that is a string with
      something left after [strip]. *)
Fixpoint first_text (rowdict : Dict.dict value) : option value :=
    match rowdict with
    | [] => None
    | (_, v) :: d' =>
        match v with
        | VStr s =>
            if Nat.ltb 0 (List.length (strip s)) then Some v
            else first_text d'
        | _ => first_text d'
        end
    end.

  (** The body of the inner loop: one normalized record for one row. *)
Definition normalize_row (rowdict : Dict.dict value) : Dict.dict value :=
    let keys := lower_keys rowdict in
    let title := row_get rowdict (first_key keys TITLE_KEYS) in
    let date := row_get rowdict (Dict.get keys S_DATE) in
    let viewers := row_get rowdict (first_key keys VIEWERS_KEYS) in
    let network := row_get rowdict (first_key keys NETWORK_KEYS) in
    let title :=
      if isna title then
        match first_text rowdict with
        | Some v => v
        | None => title
        end
      else title in
    [(S_TITLE, title); (S_DATE, date); (S_VIEWERS, viewers);
     (S_NETWORK, network)].

  (** The rows of all tables, in order, each as its dictionary; the
      cells of a table are taken as [iterrows] hands them over. *)
Definition all_rows (dfs : list DataFrame) : list (Dict.dict value) :=
    flat_map (fun df => map (row_dict df) (rows df)) dfs.

  (** The list [normalized_rows] when the loops end. *)
Definition normalized_rows (dfs : list DataFrame)
    : list (Dict.dict value) :=
    map normalize_row (all_rows dfs).

  (** The column labels of the tables are taken as [str(c)] gives them
      (the assignment to [df.columns] at the head of the outer loop). *)
Definition unify_tables (dfs : list DataFrame) : res DataFrame :=
    match dfs with
    | [] => Raise ValueError
    | _ => Ok (DataFrame_of_records (normalized_rows dfs))
    end.
End Unifier.

(** ** The cleaner *)

Section Cleaner.
Context `{RT : Runtime}.

Definition opt_float_value (o : option Float.float) : value :=
    match o with Some f => VFloat f | None => VNone end.

Definition opt_int_value (o : option Z) : value :=
    match o with Some z => VInt z | None => VNone end.

  (** [.fillna('')] on one cell *)
Definition fillna_empty (v : value) : value :=
    if isna v then VStr [] else v.

  (** [.astype(str)] on one cell *)
Definition astype_str (v : value) : value := VStr (py_str v).

  (** [.isin(['', None])] on one cell *)
Definition isin_empty_none (v : value) : bool :=
    match v with
    | VStr [] => true
    | VNone => true
    | _ => false
    end.

  (** The first loop: each of the four columns the frame has goes
      through [remove_bracket_refs]. *)
Fixpoint strip_columns (df : DataFrame) (cs : list str) : res DataFrame :=
    match cs with
    | [] => Ok df
    | c :: cs' =>
        if has_col df c then
          col <- col_get df c ;;
          strip_columns
            (col_set df c (infer_objects (map remove_bracket_refs col))) cs'
        else strip_columns df cs'
    end.

Definition normalize_title (df : DataFrame) : res DataFrame :=
    if has_col df S_TITLE then
      col <- col_get df S_TITLE ;;
      let df := col_set df S_TITLE
                  (map (fun v => str_method strip
                                   (astype_str (fillna_empty v))) col) in
      col <- col_get df S_TITLE ;;
      let df := col_set df S_TITLE
                  (map (str_method (Re.sub RE_SPACES [SPACE])) col) in
      col <- col_get df S_TITLE ;;
      Ok (col_set df S_TITLE_CLEAN (map (str_method str_lower) col))
    else Ok df.

Definition clean_df (df : DataFrame) : res DataFrame :=
    df <- strip_columns df [S_TITLE; S_DATE; S_VIEWERS; S_NETWORK] ;;
    df <- normalize_title df ;;
    col <- col_get df S_VIEWERS ;;
    vm <- series_apply parse_viewers col ;;
    let df := col_set df S_VIEWERS_MILLIONS
                (infer_objects (map opt_float_value vm)) in
    col <- col_get df S_DATE ;;
    ys <- series_apply extract_year col ;;
    let df := col_set df S_YEAR (infer_objects (map opt_int_value ys)) in
    col <- col_get df S_TITLE ;;
    let df := mask_rows df (map (fun v => negb (isin_empty_none v)) col) in
    col <- col_get df S_VIEWERS_MILLIONS ;;
    let df := mask_rows df (map (fun v => negb (isna v)) col) in
    Ok df.
End Cleaner.

(** ** The outside world

    The page, the HTML parser, the file system and the broker are not
    part of the program.  A run is a trace of the calls made, each with
    the answer received, and of the lines printed; the world answers a
    call knowing the trace so far. *)

Record message : Type := {
  m_title : value;
  m_title_clean : value;
  m_date : value;
  m_year : value;
  m_viewers_millions : value;
  m_network : value
}.

(** What [to_csv] hands to the file system: a header line and one line
    of cells per row. *)
Record csv : Type := {
  header : list str;
  body : list (list value)
}.

Inductive call : Type :=
| HttpGet (url : str)
| AdminConnect (bootstrap : str) (request_timeout_ms : N)
| CreateTopics (name : str) (num_partitions replication_factor : nat)
| ProducerConnect (bootstrap : str) (retries : nat)
| ProducerSend (topic : str) (msg : message)
| ProducerFlush
| ProducerClose
| WriteFile (path : str) (content : csv).

Inductive answer : Type :=
| Returned (text : str)
| Failed (e : exn).

Inductive line : Type :=
| LFetching
| LExtracting
| LFound (n : nat)
| LCombined (n : nat)
| LCleaning
| LCleaned (n : nat)
| LLowRows
| LSaved (path : str)
| LKafkaError (e : exn)
| LMakeSure (bootstrap : str)
| LTableWarning (i : nat) (e : exn)
| LCreated (topic : str)
| LExists (topic : str)
| LTopicWarning (e : exn)
| LAdminWarning (e : exn)
| LSendFailed (title : value) (e : exn)
| LProduced (sent : nat) (topic : str).

Inductive event : Type :=
| Called (c : call) (a : answer)
| Printed (l : line).

Definition trace := list event.

Module IO.
Section IO.
Variable world : trace -> call -> answer.

Definition IO (A : Type) : Type := trace -> res A * trace.

Definition ret {A} (a : A) : IO A := fun tr => (Ok a, tr).

Definition bind {A B} (m : IO A) (f : A -> IO B) : IO B :=
    fun tr =>
      match m tr with
      | (Ok a, tr') => f a tr'
      | (Raise e, tr') => (Raise e, tr')
      end.

Definition lift {A} (r : res A) : IO A := fun tr => (r, tr).

  (** [try: m  except Exception as e: h e] *)
Definition try_with {A} (m : IO A) (h : exn -> IO A) : IO A :=
    fun tr =>
      match m tr with
      | (Ok a, tr') => (Ok a, tr')
      | (Raise e, tr') => h e tr'
      end.

Definition do_call (c : call) : IO str :=
    fun tr =>
      let a := world tr c in
      (match a with Returned x => Ok x | Failed e => Raise e end,
       tr ++ [Called c a]).

Definition print (l : line) : IO unit :=
    fun tr => (Ok tt, tr ++ [Printed l]).
End IO.
End IO.

Notation "x <-- m ;; f" := (IO.bind m (fun x => f))
  (at level 61, m at next level, right associativity).

Definition URL : str :=
  of_string
    "https://en.wikipedia.org/wiki/List_of_most-watched_television_broadcasts".
Definition KAFKA_BOOTSTRAP : str := of_string "localhost:9092".
Definition TOPIC : str := of_string "bonus_22b031177".
Definition OUTPUT_CSV : str := of_string "cleaned_data.csv".

(** [df.to_csv(path, index=index)]: with [index] the row numbers come
    first, under an empty label. *)
Definition to_csv (df : DataFrame) (index : bool) : csv :=
  if index then
    {| header := [] :: columns df;
       body := map (fun ir => VInt (Z.of_nat (fst ir)) :: snd ir)
                   (combine (seq 0 (List.length (rows df))) (rows df)) |}
  else {| header := columns df; body := rows df |}.

(** [int(x)] for a float: towards zero. *)
Definition float_trunc (f : Float.float) : res Z :=
  match f with
  | S754_zero _ => Ok 0%Z
  | S754_finite s m e =>
      let a := match e with
               | Zneg p => Z.shiftr (Zpos m) (Zpos p)
               | _ => Z.shiftl (Zpos m) e
               end in
      Ok (if s then Z.opp a else a)
  | S754_infinity _ => Raise OverflowError
  | S754_nan => Raise ValueError
  end.

(** [float(z)] for an integer: too large an integer raises. *)
Definition float_of_Z (z : Z) : res Float.float :=
  let f := Float.of_N (Z.abs_N z) in
  match f with
  | S754_infinity _ => Raise OverflowError
  | _ => Ok (if (z <? 0)%Z then SFopp f else f)
  end.

Section Publisher.
Context `{RT : Runtime}.
Variable world : trace -> call -> answer.

Let do_call := IO.do_call world.

  (** [int(v)]; a string must be plain decimal digits. *)
Definition int_of_value (v : value) : res Z :=
    match v with
    | VInt z => Ok z
    | VFloat f => float_trunc f
    | VStr s => match s with [] => Raise ValueError | _ => py_int 0 s end
    | VNone => Raise TypeError
    end.

  (** [float(v)]; a string must be a plain numeral. *)
Definition float_of_value (v : value) : res Float.float :=
    match v with
    | VFloat f => Ok f
    | VInt z => float_of_Z z
    | VStr s => py_float s
    | VNone => Raise TypeError
    end.

  (** [row.get(c)] *)
Definition series_get (cols : list str) (row : list value) (c : str)
    : value :=
    match index_of c cols with
    | Some i => cell i row
    | None => VNone
    end.

  (** [row[c]] *)
Definition series_item (cols : list str) (row : list value) (c : str)
    : res value :=
    match index_of c cols with
    | Some i => Ok (cell i row)
    | None => Raise (KeyError c)
    end.

  (** The dictionary [msg] of one row. *)
Definition build_msg (cols : list str) (row : list value) : res message :=
    y <- series_item cols row S_YEAR ;;
    year <- (if negb (isna y) then z <- int_of_value y ;; Ok (VInt z)
             else Ok VNone) ;;
    v <- series_item cols row S_VIEWERS_MILLIONS ;;
    vm <- (if negb (isna v) then f <- float_of_value v ;; Ok (VFloat f)
           else Ok VNone) ;;
    Ok {| m_title := series_get cols row S_TITLE;
          m_title_clean := series_get cols row S_TITLE_CLEAN;
          m_date := series_get cols row S_DATE;
          m_year := year;
          m_viewers_millions := vm;
          m_network := series_get cols row S_NETWORK |}.

Definition ensure_topic (topic_name : str) : IO.IO unit :=
    IO.try_with
      (_ <-- do_call (CreateTopics topic_name 1 1) ;;
       IO.print (LCreated topic_name))
      (fun e =>
         match e with
         | TopicAlreadyExistsError => IO.print (LExists topic_name)
         | _ => IO.print (LTopicWarning e)
         end).

  (** The [for _, row in df.iterrows()] loop with its counter. *)
Fixpoint send_loop (topic : str) (cols : list str)
           (rs : list (list value)) (sent : nat) : IO.IO nat :=
    match rs with
    | [] => IO.ret sent
    | row :: rs' =>
        msg <-- IO.lift (build_msg cols row) ;;
        sent' <-- IO.try_with
                    (_ <-- do_call (ProducerSend topic msg) ;;
                     IO.ret (S sent))
                    (fun e =>
                       _ <-- IO.print
                               (LSendFailed (series_get cols row S_TITLE) e) ;;
                       IO.ret sent) ;;
        send_loop topic cols rs' sent'
    end.

Definition produce_to_kafka (df : DataFrame) (bootstrap topic : str)
    : IO.IO unit :=
    _ <-- IO.try_with
            (_ <-- do_call (AdminConnect bootstrap 10000) ;;
             ensure_topic topic)
            (fun e => IO.print (LAdminWarning e)) ;;
    _ <-- do_call (ProducerConnect bootstrap 5) ;;
    sent <-- send_loop topic (columns df) (rows df) 0 ;;
    _ <-- do_call ProducerFlush ;;
    _ <-- do_call ProducerClose ;;
    IO.print (LProduced sent topic).

  (** *** Extraction and the main sequence *)

  (** [soup.find_all("table", {"class": "wikitable"})], each table as
      [str(table)], and [pd.read_html]: the two parsers. *)
Variable find_tables : str -> list str.
Variable read_html : str -> res (list DataFrame).

Definition fetch_html (url : str) : IO.IO str :=
    _ <-- IO.print LFetching ;;
    do_call (HttpGet url).

  (** [df['_source_table_index'] = i] *)
Definition tag_table (df : DataFrame) (i : nat) : DataFrame :=
    col_set df S_SOURCE_INDEX
            (repeat (VInt (Z.of_nat i)) (List.length (rows df))).

Fixpoint extract_loop (tables : list str) (i : nat) (dfs : list DataFrame)
    : IO.IO (list DataFrame) :=
    match tables with
    | [] => IO.ret dfs
    | table :: tables' =>
        match (l <- read_html table ;;
               match l with [] => Raise IndexError | df :: _ => Ok df end) with
        | Ok df => extract_loop tables' (S i) (dfs ++ [tag_table df i])
        | Raise e =>
            _ <-- IO.print (LTableWarning i e) ;;
            extract_loop tables' (S i) dfs
        end
    end.

Definition extract_tables (html : str) : IO.IO (list DataFrame) :=
    extract_loop (find_tables html) 0 [].

Definition main : IO.IO unit :=
    _ <-- IO.print LFetching ;;
    html <-- fetch_html URL ;;
    _ <-- IO.print LExtracting ;;
    dfs <-- extract_tables html ;;
    _ <-- IO.print (LFound (List.length dfs)) ;;
    combined <-- IO.lift (unify_tables dfs) ;;
    _ <-- IO.print (LCombined (List.length (rows combined))) ;;
    _ <-- IO.print LCleaning ;;
    cleaned <-- IO.lift (clean_df combined) ;;
    _ <-- IO.print (LCleaned (List.length (rows cleaned))) ;;
    _ <-- (if Nat.ltb (List.length (rows cleaned)) 20
           then IO.print LLowRows else IO.ret tt) ;;
    _ <-- do_call (WriteFile OUTPUT_CSV (to_csv cleaned false)) ;;
    _ <-- IO.print (LSaved OUTPUT_CSV) ;;
    IO.try_with
      (produce_to_kafka cleaned KAFKA_BOOTSTRAP TOPIC)
      (fun e =>
         _ <-- IO.print (LKafkaError e) ;;
         IO.print (LMakeSure KAFKA_BOOTSTRAP)).
End Publisher.

(** * Properties *)

(** ** Lists and strings *)

Definition is_nil {A} (l : list A) : bool :=
  match l with [] => true | _ => false end.

Lemma firstn_len_app {A} (m rest : list A) :
  firstn (List.length (m ++ rest) - List.length rest) (m ++ rest) = m.
Proof.
  rewrite length_app, Nat.add_sub.
  rewrite firstn_app, Nat.sub_diag, firstn_all. simpl.
  apply app_nil_r.
Qed.

Lemma len_app_sub {A} (m rest : list A) :
  (List.length (m ++ rest) - List.length rest)%nat = List.length m.
Proof. rewrite length_app. lia. Qed.

Lemma orelse_none {A} (x y : option A) :
  orelse x y = None <-> x = None /\ y = None.
Proof.
  destruct x; simpl; split; intros; try tauto; try discriminate.
Qed.

Lemma orelse_l {A} (x y : option A) : x <> None -> orelse x y <> None.
Proof. destruct x; simpl; congruence. Qed.

Lemma orelse_r {A} (x y : option A) : y <> None -> orelse x y <> None.
Proof. destruct x; simpl; congruence. Qed.

Lemma orelse_some {A} (x y : option A) z :
  orelse x y = Some z -> x = Some z \/ (x = None /\ y = Some z).
Proof. destruct x; simpl; auto. Qed.

(** ** The matcher against the declarative reading of a pattern *)

(** [Matches r bos m rest cap cap' bos']: the pattern [r] can match the
    text [m] when [rest] follows it; [bos] tells whether [m] starts the
    string, [cap] is group 1 before and [cap'] after. *)
Fixpoint Matches (r : regex) (bos : bool) (m rest : str)
         (cap cap' : option str) (bos' : bool) : Prop :=
  match r with
  | Class p => exists c, m = [c] /\ p c = true /\ cap' = cap /\ bos' = false
  | Seq r1 r2 =>
      exists m1 m2 c1 b1,
        m = m1 ++ m2 /\ Matches r1 bos m1 (m2 ++ rest) cap c1 b1
        /\ Matches r2 b1 m2 rest c1 cap' bos'
  | Opt r1 =>
      Matches r1 bos m rest cap cap' bos'
      \/ (m = [] /\ cap' = cap /\ bos' = bos)
  | Rep _ lo p =>
      forallb p m = true /\ (lo <= List.length m)%nat /\ cap' = cap
      /\ bos' = (bos && is_nil m)
  | Grp r1 => exists c0, Matches r1 bos m rest cap c0 bos' /\ cap' = Some m
  | Eps => m = [] /\ cap' = cap /\ bos' = bos
  | Bol => m = [] /\ bos = true /\ cap' = cap /\ bos' = bos
  | Eol => m = [] /\ (rest = [] \/ rest = [NL]) /\ cap' = cap /\ bos' = bos
  end.

Section MatcherFacts.
Variable R : Type.
Implicit Types (k : cont R) (s m rest : str).

Lemma rep_unfold g p lo bos s cap k :
  rep g p lo bos s cap k =
  let stop := match lo with O => k bos s cap | S _ => None end in
  let more := match s with
              | c :: s' => if p c then rep g p (pred lo) false s' cap k
                           else None
              | [] => None
              end in
  if g then orelse more stop else orelse stop more.
Proof. destruct s; reflexivity. Qed.

Lemma rep_sound g p : forall s lo bos cap k x,
  rep g p lo bos s cap k = Some x ->
  exists m rest, s = m ++ rest /\ forallb p m = true
    /\ (lo <= List.length m)%nat /\ k (bos && is_nil m) rest cap = Some x.
Proof.
  induction s as [|c s IH]; intros lo bos cap k x H.
  - simpl in H.
    assert (lo = O /\ k bos [] cap = Some x) as [-> Hk].
    { destruct g, lo; simpl in H; try discriminate; auto.
      destruct (k bos [] cap); simpl in H; try discriminate; auto. }
    exists [], []. rewrite andb_true_r. auto.
  - simpl in H.
    assert (Hcases :
      (lo = O /\ k bos (c :: s) cap = Some x)
      \/ (p c = true /\ rep g p (pred lo) false s cap k = Some x)).
    { destruct g; apply orelse_some in H;
        destruct H as [H | [H1 H]];
        repeat match goal with
        | H : (match lo with O => _ | S _ => _ end) = Some _ |- _ =>
            destruct lo; [left; auto | discriminate]
        | H : (if p c then _ else _) = Some _ |- _ =>
            destruct (p c); [right; auto | discriminate]
        end. }
    destruct Hcases as [[-> Hk] | [Hp Hr]].
    + exists [], (c :: s). rewrite andb_true_r. auto.
    + apply IH in Hr as (m & rest & -> & Hall & Hlo & Hk).
      exists (c :: m), rest. simpl. rewrite Hp, Hall.
      rewrite andb_false_r. simpl in Hk.
      repeat split; auto. lia.
Qed.

Lemma rep_complete g p : forall m rest lo bos cap k,
  forallb p m = true -> (lo <= List.length m)%nat ->
  k (bos && is_nil m) rest cap <> None ->
  rep g p lo bos (m ++ rest) cap k <> None.
Proof.
  induction m as [|c m IH]; intros rest lo bos cap k Hall Hlo Hk.
  - simpl in Hlo. assert (lo = O) by lia. subst lo.
    rewrite andb_true_r in Hk. simpl app.
    rewrite rep_unfold. cbv zeta.
    destruct g; [apply orelse_r | apply orelse_l]; exact Hk.
  - simpl in Hall. apply andb_prop in Hall as [Hp Hall].
    simpl app. rewrite rep_unfold. cbv zeta. rewrite Hp.
    assert (Hm : rep g p (pred lo) false (m ++ rest) cap k <> None).
    { apply IH; auto. simpl in Hlo. lia.
      simpl. rewrite andb_false_r in Hk. exact Hk. }
    destruct g; [apply orelse_l | apply orelse_r]; exact Hm.
Qed.

Lemma rmatch_sound r : forall bos s cap k x,
  rmatch r bos s cap k = Some x ->
  exists m rest cap' b',
    s = m ++ rest /\ Matches r bos m rest cap cap' b'
    /\ k b' rest cap' = Some x.
Proof.
  induction r as [p | r1 IH1 r2 IH2 | r1 IH1 | g lo p | r1 IH1 | | |];
    intros bos s cap k x H; simpl in H.
  - destruct s as [|c s]; [discriminate|].
    destruct (p c) eqn:Hp; [|discriminate].
    exists [c], s, cap, false. simpl. eauto 10.
  - apply IH1 in H as (m1 & rest1 & c1 & b1 & -> & M1 & H).
    apply IH2 in H as (m2 & rest & c2 & b2 & -> & M2 & H).
    exists (m1 ++ m2), rest, c2, b2. rewrite app_assoc.
    repeat split; auto. simpl. exists m1, m2, c1, b1. auto.
  - apply orelse_some in H as [H | [_ H]].
    + apply IH1 in H as (m & rest & c' & b' & -> & M & H).
      exists m, rest, c', b'. simpl. auto.
    + exists [], s, cap, bos. simpl. auto 10.
  - apply rep_sound in H as (m & rest & -> & Hall & Hlo & H).
    exists m, rest, cap, (bos && is_nil m). simpl. auto 10.
  - apply IH1 in H as (m & rest & c' & b' & -> & M & H).
    rewrite firstn_len_app in H.
    exists m, rest, (Some m), b'. simpl. eauto 10.
  - exists [], s, cap, bos. simpl. auto 10.
  - destruct bos; [|discriminate].
    exists [], s, cap, true. simpl. auto 10.
  - exists [], s, cap, bos.
    destruct s as [|c [|c' s]]; try discriminate.
    + simpl. auto 10.
    + destruct (N.eqb_spec c NL); [|discriminate]. subst c.
      simpl. auto 10.
Qed.

Lemma rmatch_complete r : forall bos m rest cap cap' b' k,
  Matches r bos m rest cap cap' b' ->
  k b' rest cap' <> None ->
  rmatch r bos (m ++ rest) cap k <> None.
Proof.
  induction r as [p | r1 IH1 r2 IH2 | r1 IH1 | g lo p | r1 IH1 | | |];
    intros bos m rest cap cap' b' k M Hk; simpl in M.
  - destruct M as (c & -> & Hp & -> & ->). simpl. rewrite Hp. exact Hk.
  - destruct M as (m1 & m2 & c1 & b1 & -> & M1 & M2).
    simpl. rewrite <- app_assoc.
    eapply IH1; [exact M1|]. eapply IH2; eauto.
  - simpl. intros H. apply orelse_none in H as [H1 H2].
    destruct M as [M | (-> & -> & ->)].
    + revert H1. eapply IH1; eauto.
    + simpl in H2. contradiction.
  - destruct M as (Hall & Hlo & -> & ->). simpl.
    apply rep_complete; auto.
  - destruct M as (c0 & M & ->). simpl.
    eapply IH1; [exact M|]. rewrite firstn_len_app. exact Hk.
  - destruct M as (-> & -> & ->). exact Hk.
  - destruct M as (-> & -> & -> & ->). exact Hk.
  - destruct M as (-> & Hrest & -> & ->). simpl app.
    destruct Hrest as [-> | ->]; simpl; exact Hk.
Qed.
End MatcherFacts.

Lemma match_here_sound r bos s n cap :
  match_here r bos s = Some (n, cap) ->
  exists m rest b',
    s = m ++ rest /\ Matches r bos m rest None cap b' /\ n = List.length m.
Proof.
  unfold match_here. intros H.
  apply rmatch_sound in H as (m & rest & c' & b' & -> & M & H).
  rewrite len_app_sub in H. inversion H; subst. eauto 10.
Qed.

Lemma match_here_complete r bos m rest cap b' :
  Matches r bos m rest None cap b' -> match_here r bos (m ++ rest) <> None.
Proof.
  intros M. unfold match_here.
  eapply rmatch_complete; [exact M | discriminate].
Qed.

(** The match is never longer than the text. *)
Lemma match_here_length r bos s n cap :
  match_here r bos s = Some (n, cap) -> (n <= List.length s)%nat.
Proof.
  intros H. apply match_here_sound in H as (m & rest & b' & -> & _ & ->).
  rewrite length_app. lia.
Qed.

(** [re.search] returns a match, and the leftmost one. *)
Lemma search_from_sound r : forall s bos pre n cap,
  search_from r bos s = Some (pre, n, cap) ->
  exists m rest b',
    s = pre ++ m ++ rest
    /\ Matches r (bos && is_nil pre) m rest None cap b'
    /\ n = List.length m.
Proof.
  induction s as [|c s IH]; intros bos pre n cap H; simpl in H.
  - destruct (match_here r bos []) as [[n' cap']|] eqn:E; [|discriminate].
    inversion H; subst.
    apply match_here_sound in E as (m & rest & b' & E & M & ->).
    exists m, rest, b'. rewrite andb_true_r. auto.
  - destruct (match_here r bos (c :: s)) as [[n' cap']|] eqn:E.
    + inversion H; subst.
      apply match_here_sound in E as (m & rest & b' & E & M & ->).
      exists m, rest, b'. rewrite andb_true_r. auto.
    + destruct (search_from r false s) as [[[pre' n'] cap']|] eqn:E';
        [|discriminate].
      inversion H; subst.
      apply IH in E' as (m & rest & b' & -> & M & ->).
      exists m, rest, b'. simpl. rewrite andb_false_r. auto.
Qed.

Lemma search_from_first r : forall s bos pre n cap,
  search_from r bos s = Some (pre, n, cap) ->
  forall pre1 u, s = pre1 ++ u ->
    (List.length pre1 < List.length pre)%nat ->
    match_here r (bos && is_nil pre1) u = None.
Proof.
  induction s as [|c s IH]; intros bos pre n cap H pre1 u Hs Hlen;
    simpl in H.
  - destruct (match_here r bos []) as [[n' cap']|]; [|discriminate].
    inversion H; subst. simpl in Hlen. lia.
  - destruct (match_here r bos (c :: s)) as [[n' cap']|] eqn:E.
    + inversion H; subst. simpl in Hlen. lia.
    + destruct (search_from r false s) as [[[pre' n'] cap']|] eqn:E';
        [|discriminate].
      inversion H; subst.
      destruct pre1 as [|c1 pre1].
      * simpl in Hs. subst u. rewrite andb_true_r. exact E.
      * simpl in Hs. inversion Hs; subst.
        rewrite andb_false_r.
        specialize (IH false pre' n cap E' pre1 u eq_refl).
        simpl in IH. apply IH. simpl in Hlen. lia.
Qed.

Lemma search_from_none r : forall s bos,
  search_from r bos s = None ->
  forall pre u, s = pre ++ u -> match_here r (bos && is_nil pre) u = None.
Proof.
  induction s as [|c s IH]; intros bos H pre u Hs; simpl in H.
  - destruct (match_here r bos []) as [[n' cap']|] eqn:E; [discriminate|].
    destruct pre; [|discriminate]. simpl in Hs. subst u.
    rewrite andb_true_r. exact E.
  - destruct (match_here r bos (c :: s)) as [[n' cap']|] eqn:E;
      [discriminate|].
    destruct (search_from r false s) as [[[pre' n'] cap']|] eqn:E';
      [discriminate|].
    destruct pre as [|c1 pre].
    + simpl in Hs. subst u. rewrite andb_true_r. exact E.
    + simpl in Hs. inversion Hs; subst. rewrite andb_false_r.
      apply (IH false E' pre u eq_refl).
Qed.

Lemma search_from_complete r pre m rest bos cap b' :
  Matches r (bos && is_nil pre) m rest None cap b' ->
  search_from r bos (pre ++ m ++ rest) <> None.
Proof.
  intros M H.
  apply (match_here_complete _ _ _ _ _ _ M).
  eapply search_from_none; eauto.
Qed.

(** *** The patterns, read declaratively *)

Definition digits1 (g : str) : Prop :=
  g <> [] /\ forallb is_digit09 g = true.

(** An unsigned decimal numeral: digits, or digits, a dot and digits. *)
Definition numeral (g : str) : Prop :=
  digits1 g
  \/ exists ip fr, g = ip ++ DOT :: fr /\ digits1 ip /\ digits1 fr.

Definition spaces (ws : str) : Prop := forallb is_space ws = true.

Definition MILLION : str := of_string "million".

Lemma nil_length {A} (l : list A) : (1 <= List.length l)%nat <-> l <> [].
Proof. destruct l; simpl; split; intros; try lia; congruence. Qed.

Lemma char_eqb_eq a b : char_eqb a b = true <-> a = b.
Proof. apply N.eqb_eq. Qed.

Lemma char_eqb_refl a : char_eqb a a = true.
Proof. apply N.eqb_refl. Qed.

Lemma Matches_Lit t : forall bos m rest cap cap' b',
  Matches (Lit t) bos m rest cap cap' b' <->
  m = t /\ cap' = cap /\ b' = (bos && is_nil t).
Proof.
  induction t as [|c t IH]; intros bos m rest cap cap' b';
    cbn [Lit Matches is_nil]; unfold Chr; cbn [Matches].
  - rewrite andb_true_r. tauto.
  - rewrite andb_false_r. split.
    + intros (m1 & m2 & c1 & b1 & -> & (x & -> & Hx & -> & ->) & M).
      apply IH in M as (-> & -> & ->).
      apply char_eqb_eq in Hx. subst x. auto.
    + intros (-> & -> & ->).
      exists [c], t, cap, false. repeat split.
      * exists c. rewrite char_eqb_refl. auto.
      * apply IH. auto.
Qed.

Lemma Matches_NUMERAL bos m rest cap cap' b' :
  Matches NUMERAL bos m rest cap cap' b' <->
  numeral m /\ cap' = cap /\ b' = false.
Proof.
  unfold NUMERAL, numeral, digits1, Chr. cbn [Matches]. split.
  - intros (m1 & m2 & c1 & b1 & -> & (H1 & L1 & -> & ->) & M2).
    apply nil_length in L1.
    assert (Hb : (bos && is_nil m1) = false).
    { destruct m1; [congruence|]. apply andb_false_r. }
    destruct M2 as [(m3 & m4 & c3 & b3 & -> & (x & -> & Hx & -> & ->)
                     & (H4 & L4 & -> & ->)) | (-> & -> & ->)].
    + apply nil_length in L4.
      apply char_eqb_eq in Hx. subst x.
      repeat split; auto. right. exists m1, m4. auto.
    + rewrite app_nil_r. repeat split; auto.
  - intros ([[Hn Hd] | (ip & fr & -> & [Hn1 Hd1] & [Hn2 Hd2])] & -> & ->).
    + exists m, [], cap, false. rewrite app_nil_r. repeat split; auto.
      * apply nil_length; auto.
      * destruct m; [congruence|]. symmetry. apply andb_false_r.
    + exists ip, (DOT :: fr), cap, false. repeat split; auto.
      * apply nil_length; auto.
      * destruct ip; [congruence|]. symmetry. apply andb_false_r.
      * left. exists [DOT], fr, cap, false. repeat split; auto.
        -- exists DOT. rewrite char_eqb_refl. auto.
        -- apply nil_length; auto.
Qed.

Lemma Matches_MILLION bos m rest cap' b' :
  Matches RE_MILLION bos m rest None cap' b' <->
  exists g ws, m = g ++ ws ++ MILLION /\ numeral g /\ spaces ws
               /\ cap' = Some g /\ b' = false.
Proof.
  unfold RE_MILLION. cbn [Matches]. split.
  - intros (m1 & m2 & c1 & b1 & -> & (c0 & M1 & ->) &
            (m3 & m4 & c3 & b3 & -> & (H3 & _ & -> & ->) & M4)).
    apply Matches_NUMERAL in M1 as (Hnum & -> & ->).
    apply Matches_Lit in M4 as (-> & -> & ->).
    exists m1, m3. auto.
  - intros (g & ws & -> & Hnum & Hws & -> & ->).
    exists g, (ws ++ MILLION), (Some g), false. repeat split.
    + exists None. split; auto. apply Matches_NUMERAL. auto.
    + exists ws, MILLION, (Some g), false. repeat split; auto.
      * lia.
      * apply Matches_Lit. auto.
Qed.



Lemma Matches_BRACKET bos m rest cap cap' b' :
  Matches RE_BRACKET bos m rest cap cap' b' <->
  exists b, m = LBRACKET :: b ++ [RBRACKET] /\ forallb is_dot b = true
            /\ cap' = cap /\ b' = false.
Proof.
  unfold RE_BRACKET, Chr. cbn [Matches]. split.
  - intros (m1 & m2 & c1 & b1 & -> & (x & -> & Hx & -> & ->) &
            (m3 & m4 & c3 & b3 & -> & (H3 & _ & -> & ->) &
             (y & -> & Hy & -> & ->))).
    apply char_eqb_eq in Hx, Hy. subst x y.
    exists m3. auto.
  - intros (b & -> & Hb & -> & ->).
    exists [LBRACKET], (b ++ [RBRACKET]), cap, false. repeat split.
    + exists LBRACKET. rewrite char_eqb_refl. auto.
    + exists b, [RBRACKET], cap, (false && is_nil b). repeat split; auto.
      * lia.
      * exists RBRACKET. rewrite char_eqb_refl. auto.
Qed.

Lemma Matches_SPACES bos m rest cap cap' b' :
  Matches RE_SPACES bos m rest cap cap' b' <->
  m <> [] /\ spaces m /\ cap' = cap /\ b' = false.
Proof.
  unfold RE_SPACES, spaces. cbn [Matches]. split.
  - intros (H & L & -> & ->). apply nil_length in L.
    repeat split; auto. destruct m; [congruence|]. apply andb_false_r.
  - intros (Hn & H & -> & ->). repeat split; auto.
    + apply nil_length; auto.
    + destruct m; [congruence|]. symmetry. apply andb_false_r.
Qed.

Section YearPattern.
Context `{RT : Runtime}.

Definition udigits (g : str) : Prop := forallb is_udigit g = true.

Lemma Matches_YEAR bos m rest cap cap' b' :
  Matches RE_YEAR bos m rest cap cap' b' <->
  List.length m = 4%nat /\ udigits m /\ cap' = Some m /\ b' = false.
Proof.
  unfold RE_YEAR, udigits. cbn [Matches]. split.
  - intros (c0 & (m1 & m2 & c1 & b1 & -> & (x1 & -> & H1 & -> & ->) &
            (m3 & m4 & c3 & b3 & -> & (x2 & -> & H2 & -> & ->) &
             (m5 & m6 & c5 & b5 & -> & (x3 & -> & H3 & -> & ->) &
              (x4 & -> & H4 & -> & ->)))) & ->).
    simpl. rewrite H1, H2, H3, H4. auto.
  - intros (L & H & -> & ->).
    destruct m as [|x1 [|x2 [|x3 [|x4 [|x5 m]]]]]; simpl in L;
      try discriminate.
    simpl in H.
    repeat match type of H with
           | (_ && _) = true => apply andb_prop in H as [? H]
           end.
    exists cap. split; auto.
    exists [x1], [x2; x3; x4], cap, false. repeat split; eauto 10.
    exists [x2], [x3; x4], cap, false. repeat split; eauto 10.
    exists [x3], [x4], cap, false. repeat split; eauto 10.
Qed.
End YearPattern.

(** ** [strip] *)

(** Neither end of the text is white space. *)
Definition trimmed (t : str) : Prop :=
  (forall c x, t = c :: x -> is_space c = false)
  /\ (forall x c, t = x ++ [c] -> is_space c = false).

Lemma lstrip_decomp s : exists a, s = a ++ lstrip s /\ spaces a.
Proof.
  induction s as [|c s (a & E & Ha)]; simpl.
  - exists []. split; reflexivity.
  - destruct (is_space c) eqn:Hc.
    + exists (c :: a). split.
      * simpl. congruence.
      * unfold spaces. simpl. rewrite Hc. exact Ha.
    + exists []. split; reflexivity.
Qed.

Lemma lstrip_head s c x : lstrip s = c :: x -> is_space c = false.
Proof.
  induction s as [|d s IH]; simpl; [discriminate|].
  destruct (is_space d) eqn:Hd; auto.
  intros H. inversion H; subst. exact Hd.
Qed.

Lemma lstrip_fix c x : is_space c = false -> lstrip (c :: x) = c :: x.
Proof. intros H. simpl. rewrite H. reflexivity. Qed.

Lemma lstrip_app a b :
  lstrip (a ++ b) = if forallb is_space a then lstrip b else lstrip a ++ b.
Proof.
  induction a as [|c a IH]; simpl; [reflexivity|].
  destruct (is_space c); simpl; auto.
Qed.

Lemma lstrip_spaces a : spaces a -> lstrip a = [].
Proof.
  unfold spaces. induction a as [|c a IH]; simpl; [reflexivity|].
  destruct (is_space c); simpl; [auto|discriminate].
Qed.

Lemma rstrip_decomp s : exists b, s = rstrip s ++ b /\ spaces b.
Proof.
  unfold rstrip. destruct (lstrip_decomp (rev s)) as (a & E & Ha).
  exists (rev a). split.
  - rewrite <- rev_app_distr, <- E. symmetry. apply rev_involutive.
  - unfold spaces in *. rewrite forallb_forall in *.
    intros c Hc. apply Ha. apply in_rev. exact Hc.
Qed.

Lemma rstrip_last s x c : rstrip s = x ++ [c] -> is_space c = false.
Proof.
  unfold rstrip. intros H.
  apply (f_equal (@rev char)) in H.
  rewrite rev_involutive, rev_app_distr in H. simpl in H.
  eapply lstrip_head; eauto.
Qed.

Lemma rstrip_cons c x :
  is_space c = false -> rstrip (c :: x) = c :: rstrip x.
Proof.
  intros Hc. unfold rstrip. simpl rev. rewrite lstrip_app.
  destruct (forallb is_space (rev x)) eqn:E.
  - rewrite (lstrip_spaces E). simpl. rewrite Hc. reflexivity.
  - rewrite rev_app_distr. reflexivity.
Qed.

Lemma forallb_rev_eq {A} (f : A -> bool) l :
  forallb f (rev l) = forallb f l.
Proof.
  induction l as [|x l IH]; simpl; [reflexivity|].
  rewrite forallb_app, IH. simpl. rewrite andb_true_r. apply andb_comm.
Qed.

Lemma rstrip_app a b :
  rstrip (a ++ b) = if forallb is_space b then rstrip a else a ++ rstrip b.
Proof.
  unfold rstrip. rewrite rev_app_distr, lstrip_app.
  rewrite forallb_rev_eq.
  destruct (forallb is_space b); auto.
  rewrite rev_app_distr, rev_involutive. reflexivity.
Qed.

Lemma rstrip_fix x c : is_space c = false -> rstrip (x ++ [c]) = x ++ [c].
Proof.
  intros H. unfold rstrip. rewrite rev_app_distr. simpl. rewrite H.
  change (c :: rev x) with ([c] ++ rev x).
  rewrite rev_app_distr, rev_involutive. reflexivity.
Qed.

Lemma strip_decomp s :
  exists a b, s = a ++ strip s ++ b /\ spaces a /\ spaces b.
Proof.
  unfold strip.
  destruct (lstrip_decomp s) as (a & Ea & Ha).
  destruct (rstrip_decomp (lstrip s)) as (b & Eb & Hb).
  exists a, b. repeat split; auto. rewrite <- Eb. exact Ea.
Qed.

Lemma strip_trimmed s : trimmed (strip s).
Proof.
  unfold strip. split.
  - intros c x E.
    destruct (lstrip s) as [|d y] eqn:El.
    + discriminate.
    + pose proof (lstrip_head _ El) as Hd.
      rewrite (rstrip_cons _ _ Hd) in E. inversion E; subst. exact Hd.
  - intros x c E. eapply rstrip_last; eauto.
Qed.

Lemma strip_fix t : trimmed t -> strip t = t.
Proof.
  intros [Hh Hl]. unfold strip.
  destruct t as [|c x]; [reflexivity|].
  rewrite (lstrip_fix _ _ (Hh c x eq_refl)).
  destruct (@exists_last _ (c :: x)) as (y & d & E); [discriminate|].
  rewrite E. apply rstrip_fix. eapply Hl; eauto.
Qed.

(** [strip] is idempotent. *)
Lemma strip_idem s : strip (strip s) = strip s.
Proof. apply strip_fix, strip_trimmed. Qed.

Lemma strip_length s : (List.length (strip s) <= List.length s)%nat.
Proof.
  destruct (strip_decomp s) as (a & b & E & _).
  rewrite E at 2. rewrite !length_app. lia.
Qed.

(** ** [re.sub] for a pattern that matches no empty text *)

Definition nonempty_pattern (r : regex) : Prop :=
  forall bos s cap, match_here r bos s <> Some (O, cap).

Lemma sub_from_skip r repl : forall n s b,
  (S n <= List.length s)%nat ->
  sub_from r repl b s (S n) = sub_from r repl false (skipn (S n) s) O.
Proof.
  induction n as [|n IH]; intros s b Hn.
  - destruct s as [|c s]; simpl in Hn; [lia|]. reflexivity.
  - destruct s as [|c s]; simpl in Hn; [lia|].
    change (sub_from r repl b (c :: s) (S (S n)))
      with (sub_from r repl false s (S n)).
    rewrite IH by lia. reflexivity.
Qed.

Lemma sub_from_eq r repl bos s :
  nonempty_pattern r ->
  sub_from r repl bos s O =
  match match_here r bos s with
  | Some (n, _) => repl ++ sub_from r repl false (skipn n s) O
  | None =>
      match s with
      | [] => []
      | c :: s' => c :: sub_from r repl false s' O
      end
  end.
Proof.
  intros Hne. destruct s as [|c s].
  - simpl. destruct (match_here r bos []) as [[n cap]|] eqn:E; auto.
    apply match_here_length in E as L. simpl in L.
    assert (n = O) by lia. subst. exfalso. eapply Hne; eauto.
  - cbn [sub_from].
    destruct (match_here r bos (c :: s)) as [[n cap]|] eqn:E; auto.
    destruct n as [|n]; [exfalso; eapply Hne; eauto|].
    apply match_here_length in E as L. simpl in L.
    destruct n as [|n]; [reflexivity|].
    rewrite sub_from_skip by lia. reflexivity.
Qed.

(** Induction over the steps [re.sub] takes: a character copied where
    nothing matches, a match replaced otherwise. *)
Lemma sub_ind r repl (P : bool -> str -> str -> Prop) :
  nonempty_pattern r ->
  (forall b, P b [] []) ->
  (forall b c s out,
      match_here r b (c :: s) = None ->
      out = sub_from r repl false s O ->
      P false s out -> P b (c :: s) (c :: out)) ->
  (forall b s n cap out,
      match_here r b s = Some (S n, cap) ->
      out = sub_from r repl false (skipn (S n) s) O ->
      P false (skipn (S n) s) out -> P b s (repl ++ out)) ->
  forall s b, P b s (sub_from r repl b s O).
Proof.
  intros Hne Hnil Hcopy Hmatch s.
  remember (List.length s) as len eqn:Hlen.
  revert s Hlen.
  induction len as [len IH] using lt_wf_ind; intros s Hlen b.
  rewrite sub_from_eq by assumption.
  destruct (match_here r b s) as [[n cap]|] eqn:E.
  - destruct n as [|n]; [exfalso; eapply Hne; eauto|].
    apply match_here_length in E as L.
    eapply Hmatch; eauto.
    eapply IH; [|reflexivity].
    rewrite length_skipn. lia.
  - destruct s as [|c s]; [apply Hnil|].
    apply Hcopy; auto.
    eapply IH; [|reflexivity]. subst len. simpl. lia.
Qed.

Lemma nonempty_BRACKET : nonempty_pattern RE_BRACKET.
Proof.
  intros bos s cap H.
  apply match_here_sound in H as (m & rest & b' & _ & M & L).
  apply Matches_BRACKET in M as (b & -> & _). discriminate.
Qed.

Lemma nonempty_DAGGER : nonempty_pattern RE_DAGGER.
Proof.
  intros bos s cap H.
  apply match_here_sound in H as (m & rest & b' & _ & M & L).
  apply Matches_Lit in M as (-> & _). discriminate.
Qed.

Lemma nonempty_SPACES : nonempty_pattern RE_SPACES.
Proof.
  intros bos s cap H.
  apply match_here_sound in H as (m & rest & b' & _ & M & L).
  apply Matches_SPACES in M as (Hn & _).
  destruct m; [congruence|discriminate].
Qed.

(** ** Bracketed spans *)

(** [close t]: the distance to the first closing bracket of [t] when no
    line break comes before it. *)
Fixpoint close (t : str) : option nat :=
  match t with
  | [] => None
  | c :: t' =>
      if c =? RBRACKET then Some O
      else if is_dot c then option_map S (close t')
      else None
  end.

(** [scan open t]: no opening bracket of [t] (nor a pending one when
    [open]) is followed on its line by a closing bracket. *)
Fixpoint scan (open : bool) (t : str) : bool :=
  match t with
  | [] => true
  | c :: t' =>
      if c =? RBRACKET then negb open && scan false t'
      else if c =? LBRACKET then scan true t'
      else if c =? NL then scan false t'
      else scan open t'
  end.

(** The text has no span [\[...\]] left for the pattern to match. *)
Definition nospan (t : str) : Prop := scan false t = true.

(** [p] occurs in [t]. *)
Definition contains (p t : str) : Prop := exists a b, t = a ++ p ++ b.

Lemma close_dots b rest :
  forallb is_dot b = true -> close (b ++ RBRACKET :: rest) <> None.
Proof.
  induction b as [|c b IH]; simpl; intros H.
  - discriminate.
  - apply andb_prop in H as [Hc Hb]. rewrite Hc.
    destruct (c =? RBRACKET); [discriminate|].
    destruct (close (b ++ RBRACKET :: rest)); [discriminate|].
    exfalso. apply IH; auto.
Qed.

Lemma close_some t n :
  close t = Some n ->
  exists b rest, t = b ++ RBRACKET :: rest /\ forallb is_dot b = true.
Proof.
  revert n. induction t as [|c t IH]; simpl; intros n H; [discriminate|].
  destruct (N.eqb_spec c RBRACKET) as [->|Hc].
  - exists [], t. auto.
  - destruct (is_dot c) eqn:Hd; [|discriminate].
    destruct (close t) as [k|]; [|discriminate].
    destruct (IH k eq_refl) as (b & rest & -> & Hb).
    exists (c :: b), rest. simpl. rewrite Hd. auto.
Qed.

Lemma match_BRACKET_inv bos s n cap :
  match_here RE_BRACKET bos s = Some (n, cap) ->
  exists t, s = LBRACKET :: t /\ close t <> None.
Proof.
  intros H. apply match_here_sound in H as (m & rest & b' & -> & M & _).
  apply Matches_BRACKET in M as (b & -> & Hb & _).
  exists (b ++ RBRACKET :: rest). split.
  - simpl. rewrite <- app_assoc. reflexivity.
  - apply close_dots. exact Hb.
Qed.

Lemma match_BRACKET_none bos t :
  match_here RE_BRACKET bos (LBRACKET :: t) = None -> close t = None.
Proof.
  intros H. destruct (close t) as [n|] eqn:E; [|reflexivity].
  apply close_some in E as (b & rest & -> & Hb).
  exfalso.
  apply (@match_here_complete RE_BRACKET bos
           (LBRACKET :: b ++ [RBRACKET]) rest None false).
  - apply Matches_BRACKET. exists b. auto.
  - simpl. rewrite <- app_assoc. exact H.
Qed.

Lemma scan_true_close t : scan true t = true -> close t = None.
Proof.
  induction t as [|c t IH]; simpl; [reflexivity|].
  destruct (c =? RBRACKET); [discriminate|].
  destruct (N.eqb_spec c LBRACKET) as [->|H1].
  - intros H. rewrite (IH H). reflexivity.
  - unfold is_dot. destruct (c =? NL); simpl; [reflexivity|].
    intros H. rewrite (IH H). reflexivity.
Qed.

Lemma close_scan t : close t = None -> scan false t = true -> scan true t = true.
Proof.
  induction t as [|c t IH]; simpl; [reflexivity|].
  destruct (c =? RBRACKET); [discriminate|].
  destruct (c =? LBRACKET); [auto|].
  unfold is_dot. destruct (c =? NL); simpl; [auto|].
  destruct (close t); [discriminate|]. auto.
Qed.

Lemma scan_weaken t : scan true t = true -> scan false t = true.
Proof.
  induction t as [|c t IH]; simpl; [reflexivity|].
  destruct (c =? RBRACKET); [discriminate|].
  destruct (c =? LBRACKET); [auto|].
  destruct (c =? NL); auto.
Qed.

Lemma scan_tail o c t : scan o (c :: t) = true -> exists o', scan o' t = true.
Proof.
  simpl.
  destruct (c =? RBRACKET).
  - intros H. apply andb_prop in H as [_ H]. eauto.
  - destruct (c =? LBRACKET); [eauto|].
    destruct (c =? NL); eauto.
Qed.

Lemma scan_suffix a : forall o t,
  scan o (a ++ t) = true -> scan false t = true.
Proof.
  induction a as [|c a IH]; intros o t H.
  - destruct o; [apply scan_weaken|]; exact H.
  - apply scan_tail in H as [o' H]. eauto.
Qed.

Lemma scan_prefix t : forall o b, scan o (t ++ b) = true -> scan o t = true.
Proof.
  induction t as [|c t IH]; intros o b; simpl; [reflexivity|].
  destruct (c =? RBRACKET).
  - intros H. apply andb_prop in H as [H1 H2]. rewrite H1. simpl. eauto.
  - destruct (c =? LBRACKET); [eauto|].
    destruct (c =? NL); eauto.
Qed.

(** One pass of [re.sub] over the bracket pattern leaves no span. *)
Lemma sub_BRACKET_nospan s : nospan (Re.sub RE_BRACKET [] s).
Proof.
  unfold nospan, Re.sub.
  enough (H : scan false (sub_from RE_BRACKET [] true s O) = true
              /\ (close s = None ->
                  close (sub_from RE_BRACKET [] true s O) = None))
    by apply H.
  apply (@sub_ind RE_BRACKET []
           (fun _ s out => scan false out = true
                           /\ (close s = None -> close out = None))).
  - apply nonempty_BRACKET.
  - auto.
  - intros b c t out Hm -> [IH1 IH2]. split.
    + simpl.
      destruct (c =? RBRACKET); [exact IH1|].
      destruct (N.eqb_spec c LBRACKET) as [->|Hc].
      * apply close_scan; auto. apply IH2.
        eapply match_BRACKET_none; eauto.
      * destruct (c =? NL); exact IH1.
    + simpl. destruct (c =? RBRACKET); [discriminate|].
      destruct (is_dot c); [|reflexivity].
      destruct (close t); [discriminate|].
      intros _. rewrite IH2; reflexivity.
  - intros b t n cap out Hm -> [IH1 IH2]. split; [exact IH1|].
    apply match_BRACKET_inv in Hm as (t' & -> & Hc).
    simpl. unfold is_dot. simpl.
    destruct (close t'); [discriminate|contradiction].
Qed.

(** Without a span the pass changes nothing. *)
Lemma sub_BRACKET_fix s : nospan s -> Re.sub RE_BRACKET [] s = s.
Proof.
  unfold nospan, Re.sub. intros H.
  assert (Ho : exists o, scan o s = true) by eauto. clear H. revert Ho.
  apply (@sub_ind RE_BRACKET []
           (fun _ s out => (exists o, scan o s = true) -> out = s)).
  - apply nonempty_BRACKET.
  - auto.
  - intros b c t out Hm -> IH [o Ho].
    apply scan_tail in Ho. rewrite IH; auto.
  - intros b t n cap out Hm -> IH [o Ho].
    apply match_BRACKET_inv in Hm as (t' & -> & Hc).
    simpl in Ho. apply scan_true_close in Ho. contradiction.
Qed.

(** *** The dagger artifact *)

Lemma match_DAGGER_inv bos s n cap :
  match_here RE_DAGGER bos s = Some (n, cap) ->
  n = 3%nat /\ exists rest, s = DAGGER ++ rest.
Proof.
  intros H. apply match_here_sound in H as (m & rest & b' & -> & M & ->).
  apply Matches_Lit in M as (-> & _). split; eauto.
Qed.

Lemma match_DAGGER_none bos rest :
  match_here RE_DAGGER bos (DAGGER ++ rest) <> None.
Proof.
  apply (@match_here_complete RE_DAGGER bos DAGGER rest None
           (bos && is_nil DAGGER)).
  apply Matches_Lit. auto.
Qed.

(** Removing the artifact keeps a text free of spans so. *)
Lemma sub_DAGGER_nospan s : nospan s -> nospan (Re.sub RE_DAGGER [] s).
Proof.
  unfold nospan, Re.sub. generalize false as o. intros o. revert o.
  apply (@sub_ind RE_DAGGER []
           (fun _ s out => forall o, scan o s = true -> scan o out = true)).
  - apply nonempty_DAGGER.
  - auto.
  - intros b c t out Hm -> IH o. simpl.
    destruct (c =? RBRACKET).
    + intros H. apply andb_prop in H as [H1 H2]. rewrite H1. simpl. auto.
    + destruct (c =? LBRACKET); [auto|].
      destruct (c =? NL); auto.
  - intros b t n cap out Hm -> IH o Ho.
    apply match_DAGGER_inv in Hm as (E & rest & ->).
    inversion E; subst n. simpl. apply IH. exact Ho.
Qed.

Lemma sub_DAGGER_fix s : ~ contains DAGGER s -> Re.sub RE_DAGGER [] s = s.
Proof.
  unfold Re.sub.
  apply (@sub_ind RE_DAGGER []
           (fun _ s out => ~ contains DAGGER s -> out = s)).
  - apply nonempty_DAGGER.
  - auto.
  - intros b c t out Hm -> IH Hn. rewrite IH; auto.
    intros (a & b0 & ->). apply Hn. exists (c :: a), b0. reflexivity.
  - intros b t n cap out Hm -> IH Hn. exfalso. apply Hn.
    apply match_DAGGER_inv in Hm as (_ & rest & ->).
    exists [], rest. reflexivity.
Qed.

Lemma sub_DAGGER_length s :
  (List.length (Re.sub RE_DAGGER [] s) <= List.length s)%nat
  /\ (contains DAGGER s ->
      (List.length (Re.sub RE_DAGGER [] s) < List.length s)%nat).
Proof.
  unfold Re.sub.
  apply (@sub_ind RE_DAGGER []
           (fun _ s out =>
              (List.length out <= List.length s)%nat
              /\ (contains DAGGER s ->
                  (List.length out < List.length s)%nat))).
  - apply nonempty_DAGGER.
  - split; [simpl; lia|]. intros (a & b0 & E).
    destruct a; discriminate.
  - intros b c t out Hm -> [IH1 IH2]. split; [simpl; lia|].
    intros (a & b0 & E). destruct a as [|x a].
    + exfalso. simpl in E. rewrite E in Hm.
      exact (@match_DAGGER_none b b0 Hm).
    + simpl in E. inversion E; subst.
      simpl. apply -> Nat.succ_lt_mono. apply IH2.
      exists a, b0. reflexivity.
  - intros b t n cap out Hm -> [IH1 IH2].
    apply match_DAGGER_inv in Hm as (E & rest & ->). injection E as ->.
    simpl in *. split; intros; lia.
Qed.

Lemma strip_nospan s : nospan s -> nospan (strip s).
Proof.
  unfold nospan. intros H.
  destruct (strip_decomp s) as (a & b & E & _).
  rewrite E in H. apply scan_suffix in H.
  destruct (strip s) as [|c x] eqn:Es; [reflexivity|].
  rewrite <- Es in *.
  eapply scan_prefix. exact H.
Qed.

Lemma strip_refs_nospan s : nospan (strip_refs s).
Proof.
  unfold strip_refs.
  apply strip_nospan, sub_DAGGER_nospan, sub_BRACKET_nospan.
Qed.

Lemma strip_refs_trimmed s : trimmed (strip_refs s).
Proof. unfold strip_refs. apply strip_trimmed. Qed.

(** When stripping twice is stripping once. *)
Lemma strip_refs_twice s :
  strip_refs (strip_refs s) = strip_refs s
  <-> ~ contains DAGGER (strip_refs s).
Proof.
  set (u := strip_refs s).
  assert (Hb : Re.sub RE_BRACKET [] u = u)
    by apply sub_BRACKET_fix, strip_refs_nospan.
  split.
  - intros E Hc.
    apply (proj2 (sub_DAGGER_length u)) in Hc.
    unfold strip_refs in E at 1. rewrite Hb in E.
    pose proof (strip_length (Re.sub RE_DAGGER [] u)) as L.
    rewrite E in L. lia.
  - intros Hn. unfold strip_refs at 1. rewrite Hb.
    rewrite (sub_DAGGER_fix Hn).
    apply strip_fix, strip_refs_trimmed.
Qed.

(** ** Digit runs and numerals *)

Lemma take_drop_while p s : take_while p s ++ drop_while p s = s.
Proof.
  induction s as [|c s IH]; simpl; [reflexivity|].
  destruct (p c); simpl; congruence.
Qed.

Lemma take_while_all p s : forallb p (take_while p s) = true.
Proof.
  induction s as [|c s IH]; simpl; [reflexivity|].
  destruct (p c) eqn:E; simpl; [rewrite E|]; auto.
Qed.

Lemma drop_while_head p s c x : drop_while p s = c :: x -> p c = false.
Proof.
  induction s as [|d s IH]; simpl; [discriminate|].
  destruct (p d) eqn:E; auto.
  intros H. inversion H; subst. exact E.
Qed.






(** Greedy repetition in front of a continuation that always succeeds
    takes the whole run. *)
Lemma orelse_none_r {A} (x : option A) : orelse x None = x.
Proof. destruct x; reflexivity. Qed.

Lemma rep_greedy_total R p (k : cont R) :
  (forall b s c, k b s c <> None) ->
  forall s lo bos cap,
    rep true p lo bos s cap k =
    if Nat.leb lo (List.length (take_while p s))
    then k (bos && is_nil (take_while p s)) (drop_while p s) cap
    else None.
Proof.
  intros Hk. induction s as [|c s IH]; intros lo bos cap.
  - simpl. rewrite andb_true_r. destruct lo; reflexivity.
  - rewrite rep_unfold. cbv zeta. simpl take_while. simpl drop_while.
    destruct (p c) eqn:Hp.
    + rewrite IH. cbn [andb is_nil List.length]. rewrite andb_false_r.
      destruct lo as [|lo]; cbn [pred Nat.leb].
      * destruct (k false (drop_while p s) cap) eqn:E; [reflexivity|].
        exfalso. eapply Hk; eauto.
      * apply orelse_none_r.
    + cbn [List.length is_nil]. rewrite andb_true_r.
      destruct lo; reflexivity.
Qed.


(** *** What each search of [parse_viewers] finds *)


Definition has_million (t : str) : Prop :=
  exists pre g ws post,
    t = pre ++ g ++ ws ++ MILLION ++ post /\ numeral g /\ spaces ws.



Lemma search_group1_some r t g :
  search_group1 r t = Some g ->
  exists pre n, search r t = Some (pre, n, Some g).
Proof.
  unfold search_group1.
  destruct (search r t) as [[[pre n] [g'|]]|]; try discriminate.
  intros H. inversion H; subst. eauto.
Qed.


Lemma search_MILLION_none t :
  search_group1 RE_MILLION t = None -> ~ has_million t.
Proof.
  unfold search_group1, search. intros H (pre & g & ws & post & -> & Hn & Hws).
  destruct (search_from RE_MILLION true
              (pre ++ g ++ ws ++ MILLION ++ post))
    as [[[pre' n] cap]|] eqn:E.
  - apply search_from_sound in E as (m & rest & b' & _ & M & _).
    apply Matches_MILLION in M as (g0 & ws0 & _ & _ & _ & -> & _).
    discriminate.
  - revert E.
    replace (pre ++ g ++ ws ++ MILLION ++ post)
      with (pre ++ (g ++ ws ++ MILLION) ++ post)
      by (rewrite <- !app_assoc; reflexivity).
    eapply search_from_complete.
    apply Matches_MILLION. exists g, ws. eauto 10.
Qed.

Lemma search_MILLION_has t :
  has_million t -> exists g, search_group1 RE_MILLION t = Some g.
Proof.
  intros H. destruct (search_group1 RE_MILLION t) as [g|] eqn:E; eauto.
  exfalso. eapply search_MILLION_none; eauto.
Qed.






(** ** Signs of floats *)

(** [signed s x]: [x] is a zero, a finite number or an infinity of sign
    bit [s]; in particular not a NaN. *)
Definition signed (s : bool) (x : Float.float) : Prop :=
  match x with
  | S754_zero b | S754_infinity b | S754_finite b _ _ => b = s
  | S754_nan => False
  end.

Lemma shr_1_nonneg mrs : (0 <= shr_m mrs)%Z -> (0 <= shr_m (shr_1 mrs))%Z.
Proof.
  destruct mrs as [m r s]. simpl.
  destruct m as [|[p|p|]|[p|p|]]; simpl; lia.
Qed.

Lemma iter_pos_inv {A} (f : A -> A) (P : A -> Prop) :
  (forall x, P x -> P (f x)) ->
  forall n x, P x -> P (iter_pos f n x).
Proof.
  intros Hf. induction n as [n IH|n IH|]; intros x Hx; simpl; auto.
Qed.

Lemma shr_fexp_nonneg m e l :
  (0 <= m)%Z ->
  (0 <= shr_m (fst (shr_fexp Float.prec Float.emax m e l)))%Z.
Proof.
  intros Hm. unfold shr_fexp, shr.
  assert (H0 : (0 <= shr_m (shr_record_of_loc m l))%Z).
  { destruct l as [|[]]; simpl; exact Hm. }
  destruct (fexp Float.prec Float.emax (Zdigits2 m + e) - e)%Z;
    simpl; auto.
  apply (iter_pos_inv shr_1 (fun r => (0 <= shr_m r)%Z));
    auto using shr_1_nonneg.
Qed.

Lemma round_nearest_even_nonneg m l :
  (0 <= m)%Z -> (0 <= round_nearest_even m l)%Z.
Proof.
  intros Hm. destruct l as [|[]]; simpl; try lia.
  destruct (Z.even m); lia.
Qed.

Lemma binary_round_aux_signed s m e l :
  (0 <= m)%Z ->
  signed s (binary_round_aux Float.prec Float.emax s m e l).
Proof.
  intros Hm. unfold binary_round_aux.
  pose proof (shr_fexp_nonneg e l Hm) as H1.
  destruct (shr_fexp Float.prec Float.emax m e l) as [mrs' e'].
  simpl in H1.
  pose proof (shr_fexp_nonneg e' loc_Exact
                (round_nearest_even_nonneg (loc_of_shr_record mrs') H1))
    as H2.
  destruct (shr_fexp Float.prec Float.emax
              (round_nearest_even (shr_m mrs') (loc_of_shr_record mrs'))
              e' loc_Exact) as [mrs'' e''].
  simpl in H2.
  destruct (shr_m mrs'') as [|p|p].
  - reflexivity.
  - destruct (e'' <=? Float.emax - Float.prec)%Z; reflexivity.
  - lia.
Qed.

Lemma SFdiv_finite_signed sx mx ex sy my ey :
  signed (xorb sx sy)
    (SFdiv Float.prec Float.emax (S754_finite sx mx ex)
                                 (S754_finite sy my ey)).
Proof.
  unfold SFdiv, SFdiv_core_binary.
  set (m' := match (ex - ey - _)%Z with
             | Z0 => Zpos mx | Zpos _ => _ | Zneg _ => 0%Z end).
  assert (Hm : (0 <= m')%Z).
  { subst m'. destruct (ex - ey - _)%Z; try lia.
    apply Z.shiftl_nonneg. lia. }
  pose proof (Z.div_pos m' (Zpos my) Hm ltac:(lia)) as Hq.
  unfold Z.div in Hq.
  destruct (Z.div_eucl m' (Zpos my)) as [q r]. simpl in Hq.
  apply binary_round_aux_signed. exact Hq.
Qed.

Lemma of_ratio_signed n d : signed false (Float.of_ratio n d).
Proof.
  unfold Float.of_ratio. destruct n as [|p]; [reflexivity|].
  apply (SFdiv_finite_signed false p 0 false d 0).
Qed.

Lemma F_MILLION_eq : F_MILLION = S754_finite false 8589934592000000 (-33).
Proof. vm_compute. reflexivity. Qed.

Lemma div_MILLION_signed x :
  signed false x -> signed false (Float.div x F_MILLION).
Proof.
  rewrite F_MILLION_eq. unfold Float.div.
  destruct x as [b|b| |b m e]; simpl; intros H; try contradiction; subst.
  - reflexivity.
  - reflexivity.
  - apply (SFdiv_finite_signed false m e false 8589934592000000 (-33)).
Qed.


Lemma signed_not_nan s x : signed s x -> Float.is_nan x = false.
Proof. destruct x; simpl; intros H; try contradiction; reflexivity. Qed.

Lemma py_float_signed t x : py_float t = Ok x -> signed false x.
Proof.
  unfold py_float. cbv zeta.
  destruct (take_while is_digit09 t) as [|c ip]; [discriminate|].
  destruct (drop_while is_digit09 t) as [|d fr].
  - intros H. inversion H. apply of_ratio_signed.
  - destruct ((d =? DOT) && forallb is_digit09 fr
              && negb (Nat.eqb (List.length fr) 0)); [|discriminate].
    intros H. inversion H. apply of_ratio_signed.
Qed.

(** ** The year pattern *)

Section YearSearch.
Context `{RT : Runtime}.

(** [g] is the leftmost four adjacent digits of [t]. *)
Definition first_year4 (t g : str) : Prop :=
  exists pre post,
    t = pre ++ g ++ post /\ List.length g = 4%nat /\ udigits g
    /\ forall pre' g' post',
         t = pre' ++ g' ++ post' ->
         List.length g' = 4%nat -> udigits g' ->
         (List.length pre <= List.length pre')%nat.

Definition has_year4 (t : str) : Prop :=
  exists pre g post,
    t = pre ++ g ++ post /\ List.length g = 4%nat /\ udigits g.

Lemma search_YEAR_some t g :
  search_group1 RE_YEAR t = Some g -> first_year4 t g.
Proof.
  intros H. apply search_group1_some in H as (pre & n & H).
  unfold search in H.
  pose proof (@search_from_first _ _ _ _ _ _ H) as Hfirst.
  apply search_from_sound in H as (m & rest & b' & Et & M & _).
  apply Matches_YEAR in M as (L & Hd & E & _).
  inversion E; subst m. clear E.
  exists pre, rest. repeat split; auto.
  intros pre' g' post' E' L' Hd'.
  destruct (Nat.le_gt_cases (List.length pre) (List.length pre'))
    as [|Hlt]; [assumption|].
  exfalso.
  pose proof (Hfirst _ _ E' Hlt) as Hnone. revert Hnone.
  eapply match_here_complete.
  apply Matches_YEAR. eauto 10.
Qed.

Lemma search_YEAR_none t :
  search_group1 RE_YEAR t = None -> ~ has_year4 t.
Proof.
  unfold search_group1, search. intros H (pre & g & post & -> & L & Hd).
  destruct (search_from RE_YEAR true (pre ++ g ++ post))
    as [[[pre' n] cap]|] eqn:E.
  - apply search_from_sound in E as (m & rest & b' & _ & M & _).
    apply Matches_YEAR in M as (_ & _ & -> & _). discriminate.
  - revert E. eapply search_from_complete.
    apply Matches_YEAR. eauto 10.
Qed.

(** [int] accepts every text of decimal digits. *)
Lemma py_int_udigits g : udigits g -> forall acc, exists z, py_int acc g = Ok z.
Proof.
  unfold udigits, is_udigit.
  induction g as [|c g IH]; simpl; intros H acc; [eauto|].
  destruct (uni_decimal c) as [d|]; [|discriminate].
  apply IH. exact H.
Qed.

(** A year read from four digits lies between 0 and 9999. *)
Lemma py_int_bound g : forall acc z,
  py_int acc g = Ok z ->
  (Z.of_N acc * 10 ^ Z.of_nat (List.length g) <= z
   < (Z.of_N acc + 1) * 10 ^ Z.of_nat (List.length g))%Z.
Proof.
  induction g as [|c g IH]; intros acc z H.
  - simpl in H. inversion H; subst. simpl. lia.
  - cbn [py_int] in H.
    destruct (uni_decimal c) as [d|] eqn:Hd; [|discriminate].
    apply uni_decimal_range in Hd.
    apply IH in H.
    replace (Z.of_nat (List.length (c :: g)))
      with (Z.succ (Z.of_nat (List.length g)))
      by (simpl List.length; lia).
    rewrite Z.pow_succ_r by lia.
    assert (0 < 10 ^ Z.of_nat (List.length g))%Z
      by (apply Z.pow_pos_nonneg; lia).
    rewrite N2Z.inj_add, N2Z.inj_mul in H.
    change (Z.of_N 10) with 10%Z in H.
    assert (0 <= Z.of_N d <= 9)%Z by lia.
    assert (0 <= Z.of_N acc)%Z by lia.
    nia.
Qed.
End YearSearch.

(** ** ASCII texts under any runtime *)

Section Ascii.
Context `{RT : Runtime}.

Lemma is_udigit_ascii c :
  is_ascii c = true -> is_udigit c = is_digit09 c.
Proof.
  intros H. unfold is_udigit. rewrite uni_decimal_ascii by assumption.
  destruct (is_digit09 c); reflexivity.
Qed.

(** The year pattern at one position, computed directly. *)
Definition year_at (p : char -> bool) (u : str) : option str :=
  match u with
  | a :: b :: c :: d :: _ =>
      if p a && p b && p c && p d then Some [a; b; c; d] else None
  | _ => None
  end.

Lemma match_YEAR bos u :
  match_here RE_YEAR bos u =
  option_map (fun g => (4%nat, Some g)) (year_at is_udigit u).
Proof.
  unfold match_here, RE_YEAR, year_at. cbn [rmatch].
  destruct u as [|a [|b [|c [|d u]]]]; try reflexivity;
    try (destruct (is_udigit a); reflexivity);
    try (destruct (is_udigit a), (is_udigit b); reflexivity);
    try (destruct (is_udigit a), (is_udigit b), (is_udigit c); reflexivity).
  destruct (is_udigit a), (is_udigit b), (is_udigit c), (is_udigit d);
    try reflexivity.
  cbn [andb option_map]. f_equal. f_equal.
  - simpl List.length. lia.
  - f_equal. simpl List.length.
    replace (S (S (S (S (List.length u)))) - List.length u)%nat
      with 4%nat by lia.
    reflexivity.
Qed.

(** The leftmost four adjacent characters of class [p]. *)
Fixpoint year_scan (p : char -> bool) (u : str) : option str :=
  match year_at p u with
  | Some g => Some g
  | None => match u with [] => None | _ :: u' => year_scan p u' end
  end.

Lemma search_YEAR_scan t :
  search_group1 RE_YEAR t = year_scan is_udigit t.
Proof.
  unfold search_group1, search. generalize true as bos.
  induction t as [|c t IH]; intros bos.
  - cbn [search_from]. rewrite match_YEAR. reflexivity.
  - cbn [search_from year_scan]. rewrite match_YEAR.
    destruct (year_at is_udigit (c :: t)) as [g|]; [reflexivity|].
    cbn [option_map]. specialize (IH false).
    destruct (search_from RE_YEAR false t) as [[[pre n] [g|]]|];
      exact IH.
Qed.

Lemma year_scan_ascii t :
  forallb is_ascii t = true ->
  year_scan is_udigit t = year_scan is_digit09 t.
Proof.
  induction t as [|a t IH]; intros H; [reflexivity|].
  cbn [year_scan].
  assert (E : year_at is_udigit (a :: t) = year_at is_digit09 (a :: t)).
  { unfold year_at. destruct t as [|b [|c [|d u]]]; try reflexivity.
    simpl in H.
    repeat match type of H with
           | (_ && _) = true => apply andb_prop in H as [? H]
           end.
    rewrite !is_udigit_ascii by assumption. reflexivity. }
  rewrite E. simpl in H. apply andb_prop in H as [_ H].
  rewrite IH by assumption. reflexivity.
Qed.

Lemma py_int_ascii g : forall acc,
  forallb is_digit09 g = true ->
  py_int acc g = Ok (Z.of_N (digits_value acc g)).
Proof.
  induction g as [|c g IH]; intros acc H; [reflexivity|].
  simpl in H. apply andb_prop in H as [Hc Hg].
  cbn [py_int digits_value].
  rewrite uni_decimal_ascii, Hc.
  - apply IH. exact Hg.
  - unfold is_digit09 in Hc. unfold is_ascii.
    apply andb_prop in Hc as [_ Hc]. apply N.leb_le in Hc.
    apply N.ltb_lt. lia.
Qed.

Lemma year_at_class p u g :
  year_at p u = Some g -> forallb p g = true.
Proof.
  unfold year_at. destruct u as [|a [|b [|c [|d u]]]]; try discriminate.
  destruct (p a) eqn:E1, (p b) eqn:E2, (p c) eqn:E3, (p d) eqn:E4;
    try discriminate.
  intros H. inversion H; subst. simpl. rewrite E1, E2, E3, E4. reflexivity.
Qed.

Lemma year_scan_class p u g :
  year_scan p u = Some g -> forallb p g = true.
Proof.
  induction u as [|c u IH]; cbn [year_scan].
  - simpl. discriminate.
  - destruct (year_at p (c :: u)) eqn:E.
    + intros H. inversion H; subst. eapply year_at_class; eauto.
    + exact IH.
Qed.

(** [extract_year] on a string whose stripped text is ASCII. *)
Lemma extract_year_ascii s :
  forallb is_ascii (strip_refs s) = true ->
  extract_year (VStr s) =
  Ok (option_map (fun g => Z.of_N (digits_value 0 g))
                 (year_scan is_digit09 (strip_refs s))).
Proof.
  intros H. unfold extract_year. cbn [isna py_str remove_bracket_refs].
  rewrite search_YEAR_scan, year_scan_ascii by assumption.
  destruct (year_scan is_digit09 (strip_refs s)) as [g|] eqn:E;
    [|reflexivity].
  rewrite py_int_ascii by (eapply year_scan_class; eauto).
  reflexivity.
Qed.

End Ascii.


(** ** The claims about the cleaning helpers *)











Section ParseViewers.
Context `{RT : Runtime}.


End ParseViewers.

Section ExtractYear.
Context `{RT : Runtime}.

Lemma extract_year_at s :
  let t := strip_refs s in
  (has_year4 t ->
   exists g y, first_year4 t g /\ py_int 0 g = Ok y
               /\ extract_year (VStr s) = Ok (Some y))
  /\ (~ has_year4 t -> extract_year (VStr s) = Ok None).
Proof.
  intros t. unfold extract_year. cbn [isna py_str remove_bracket_refs].
  fold t.
  destruct (search_group1 RE_YEAR t) as [g|] eqn:E.
  - apply search_YEAR_some in E as F.
    assert (Hh : has_year4 t).
    { destruct F as (pre & post & Et & L & Hd & _).
      exists pre, g, post. auto. }
    split; [|intros; contradiction].
    intros _.
    assert (Hd : udigits g) by (destruct F as (? & ? & _ & _ & Hd & _); exact Hd).
    destruct (py_int_udigits Hd 0) as [y Hy].
    exists g, y. rewrite Hy. auto.
  - apply search_YEAR_none in E.
    split; [intros; contradiction|]. auto.
Qed.

Lemma extract_year_total v : exists y, extract_year v = Ok y.
Proof.
  unfold extract_year. destruct (isna v); [eauto|].
  destruct (search_group1 RE_YEAR _) as [g|] eqn:E; [|eauto].
  apply search_YEAR_some in E as (pre & post & _ & _ & Hd & _).
  destruct (py_int_udigits Hd 0) as [y Hy]. rewrite Hy. simpl. eauto.
Qed.

Lemma parse_viewers_total v : exists r, parse_viewers v = Ok r.
Proof.
  unfold parse_viewers. destruct (isna v); [eauto|].
  destruct (search_group1 RE_MILLION _) as [g|].
  { destruct (py_float g); simpl; eauto. }
  destruct (search_group1 RE_DIGITS4 _) as [g|].
  { destruct (py_float g); simpl; eauto. }
  destruct (search_group1 RE_NUMBER_ONLY _) as [g|]; [|eauto].
  destruct (py_float g) as [x|]; simpl; eauto.
  destruct (Float.gtb x F_100); simpl; eauto.
Qed.

Lemma remove_bracket_refs_str s :
  remove_bracket_refs (VStr s) = VStr (strip_refs s).
Proof. reflexivity. Qed.
End ExtractYear.

(** Following the words of the specification: the maximal runs of
    characters of class [p] in a text, in order ([cur] is the run being
    read, reversed). *)
Fixpoint digit_runs (p : char -> bool) (s cur : str) : list str :=
  match s with
  | [] => match cur with [] => [] | _ => [rev cur] end
  | c :: s' =>
      if p c then digit_runs p s' (c :: cur)
      else match cur with
           | [] => digit_runs p s' []
           | _ => rev cur :: digit_runs p s' []
           end
  end.

(** Following the words of the specification: the first run of exactly
    four digits. *)
Definition exact_run4 `{Runtime} (t : str) : option str :=
  find (fun g => Nat.eqb (List.length g) 4) (digit_runs is_udigit t []).


(** C4, as the specification words it, fails: in "12345" no run has
    exactly four digits, and the year read is 1234. *)
Lemma extract_year_inside_longer_run :
  @extract_year ascii_runtime (VStr (of_string "12345")) = Ok (Some 1234%Z)
  /\ @exact_run4 ascii_runtime
       (strip_refs (of_string "12345")) = None.
Proof. split; vm_compute; reflexivity. Qed.

(** C4 (amended). [extract_year] returns the value of the leftmost four
    adjacent digits of the text left by the reference strip, whether or
    not more digits follow them, and nothing when the text has no four
    adjacent digits.  "March 3, 2008[a]" gives 2008 and "unknown"
    gives nothing. *)
Theorem extract_year_first_four :
  forall RT : Runtime,
    (forall s, let t := strip_refs s in
       (has_year4 t ->
        exists g y, first_year4 t g /\ py_int 0 g = Ok y
                    /\ extract_year (VStr s) = Ok (Some y))
       /\ (~ has_year4 t -> extract_year (VStr s) = Ok None))
    /\ extract_year (VStr (of_string "March 3, 2008[a]")) = Ok (Some 2008%Z)
    /\ extract_year (VStr (of_string "unknown")) = Ok None.
Proof.
  intros RT. split; [apply extract_year_at|].
  split; rewrite extract_year_ascii by (vm_compute; reflexivity);
    vm_compute; reflexivity.
Qed.

(** C5, as stated, fails: one pass over "a-circumflex, dagger artifact,
    euro, no-break space, x" removes the artifact in the middle and
    leaves a new one, which a second pass removes. *)
Lemma remove_bracket_refs_not_idempotent :
  @remove_bracket_refs ascii_runtime
    (@remove_bracket_refs ascii_runtime
       (VStr [226; 226; 8364; 160; 8364; 160; 120]))
  <> @remove_bracket_refs ascii_runtime
       (VStr [226; 226; 8364; 160; 8364; 160; 120]).
Proof. vm_compute. discriminate. Qed.

(** C5 (amended). Stripping the reference markers of a string twice
    equals stripping them once exactly when the once-stripped string
    holds no dagger artifact; the removal of the bracketed spans and
    the trimming are idempotent by themselves. *)
Theorem remove_bracket_refs_twice :
  forall (RT : Runtime) (s : str),
    remove_bracket_refs (remove_bracket_refs (VStr s))
    = remove_bracket_refs (VStr s)
    <-> ~ contains DAGGER (strip_refs s).
Proof.
  intros RT s. rewrite !remove_bracket_refs_str.
  rewrite <- strip_refs_twice. split.
  - intros H. inversion H. congruence.
  - intros H. rewrite H. reflexivity.
Qed.

(** C9. On a missing value [remove_bracket_refs] returns its argument
    and [parse_viewers] and [extract_year] return nothing; on every
    string the three return without raising. *)
Theorem helpers_total :
  forall RT : Runtime,
    (forall v, isna v = true ->
       remove_bracket_refs v = v
       /\ parse_viewers v = Ok None /\ extract_year v = Ok None)
    /\ (forall s,
          (exists t, remove_bracket_refs (VStr s) = VStr t)
          /\ (exists r, parse_viewers (VStr s) = Ok r)
          /\ (exists y, extract_year (VStr s) = Ok y)).
Proof.
  intros RT. split.
  - intros v Hv.
    unfold remove_bracket_refs, parse_viewers, extract_year.
    rewrite Hv. auto.
  - intros s. split; [|split].
    + exists (strip_refs s). reflexivity.
    + apply parse_viewers_total.
    + apply extract_year_total.
Qed.

(** ** Frames built row by row

    The cleaner works column by column; its effect is easier to read
    row by row.  [frame cols f xs] is the frame with one row [f x] for
    each [x] of [xs]. *)

Definition frame {A} (cols : list str) (f : A -> list value) (xs : list A)
  : DataFrame :=
  {| columns := cols; rows := map f xs |}.

Lemma combine_map {A B C} (f : A -> B) (g : A -> C) xs :
  combine (map f xs) (map g xs) = map (fun x => (f x, g x)) xs.
Proof. induction xs as [|x xs IH]; simpl; congruence. Qed.

Lemma col_get_frame {A} cols (f : A -> list value) xs c i :
  index_of c cols = Some i ->
  col_get (frame cols f xs) c = Ok (map (fun x => cell i (f x)) xs).
Proof.
  intros H. unfold col_get, frame. simpl. rewrite H, map_map. reflexivity.
Qed.

Lemma col_get_missing {A} cols (f : A -> list value) xs c :
  index_of c cols = None ->
  col_get (frame cols f xs) c = Raise (KeyError c).
Proof. intros H. unfold col_get, frame. simpl. rewrite H. reflexivity. Qed.

Lemma has_col_frame {A} cols (f : A -> list value) xs c :
  has_col (frame cols f xs) c =
  match index_of c cols with Some _ => true | None => false end.
Proof. reflexivity. Qed.

Lemma col_set_frame {A} cols (f : A -> list value) (g : A -> value) xs c i :
  index_of c cols = Some i ->
  col_set (frame cols f xs) c (map g xs)
  = frame cols (fun x => list_set (f x) i (g x)) xs.
Proof.
  intros H. unfold col_set, frame. simpl. rewrite H.
  rewrite combine_map, map_map. reflexivity.
Qed.

Lemma col_add_frame {A} cols (f : A -> list value) (g : A -> value) xs c :
  index_of c cols = None ->
  col_set (frame cols f xs) c (map g xs)
  = frame (cols ++ [c]) (fun x => f x ++ [g x]) xs.
Proof.
  intros H. unfold col_set, frame. simpl. rewrite H.
  rewrite combine_map, map_map. reflexivity.
Qed.

Lemma mask_rows_frame {A} cols (f : A -> list value) (b : A -> bool) xs :
  mask_rows (frame cols f xs) (map b xs) = frame cols f (filter b xs).
Proof.
  unfold mask_rows, frame. simpl. f_equal.
  rewrite combine_map.
  induction xs as [|x xs IH]; simpl; [reflexivity|].
  destruct (b x); simpl; congruence.
Qed.

Lemma series_apply_map {A B} (h : value -> res B) (h' : A -> B)
      (g : A -> value) xs :
  (forall x, h (g x) = Ok (h' x)) ->
  series_apply h (map g xs) = Ok (map h' xs).
Proof.
  intros H. induction xs as [|x xs IH]; simpl; [reflexivity|].
  rewrite H, IH. reflexivity.
Qed.

Lemma frame_ext {A} cols (f g : A -> list value) xs :
  (forall x, f x = g x) -> frame cols f xs = frame cols g xs.
Proof. intros H. unfold frame. f_equal. apply map_ext. exact H. Qed.

(** *** Cells in the type of their column *)

(** The cell [g r] of the column that [g] makes of [rs], in the type of
    that column. *)
Definition typed {A} (rs : list A) (g : A -> value) (r : A) : value :=
  as_dtype (as_floats (map g rs)) (g r).

Lemma infer_objects_map {A} (g : A -> value) xs :
  infer_objects (map g xs) = map (typed xs g) xs.
Proof. unfold infer_objects, typed. apply map_map. Qed.

Lemma typed_ext {A} (rs : list A) (g h : A -> value) r :
  (forall x, g x = h x) -> typed rs g r = typed rs h r.
Proof.
  intros H. unfold typed. rewrite (map_ext g h H), H. reflexivity.
Qed.

Lemma of_Z_not_nan z : Float.is_nan (Float.of_Z z) = false.
Proof.
  unfold Float.of_Z, Float.of_N.
  pose proof (of_ratio_signed (Z.abs_N z) 1) as H.
  destruct (Float.of_ratio (Z.abs_N z) 1); try contradiction;
    destruct (z <? 0)%Z; reflexivity.
Qed.

(** The type of the column does not change which cells are missing. *)
Lemma isna_as_dtype b v : isna (as_dtype b v) = isna v.
Proof.
  destruct b; [|reflexivity].
  destruct v; try reflexivity. simpl. apply of_Z_not_nan.
Qed.

Lemma isna_typed {A} (rs : list A) g r : isna (typed rs g r) = isna (g r).
Proof. apply isna_as_dtype. Qed.

(** Strings and floats are the same in either type. *)
Lemma as_dtype_str b s : as_dtype b (VStr s) = VStr s.
Proof. destruct b; reflexivity. Qed.

Lemma as_dtype_float b f : as_dtype b (VFloat f) = VFloat f.
Proof. destruct b; reflexivity. Qed.

(** A column that holds a string is left as it is. *)
Lemma as_floats_str vs s : In (VStr s) vs -> as_floats vs = false.
Proof.
  intros H. unfold as_floats.
  replace (existsb is_str vs) with true; [reflexivity|].
  symmetry. apply existsb_exists. exists (VStr s). auto.
Qed.

(** A function that takes all missing values alike does not see the
    type of the column, on a cell that is not an integer. *)
Lemma na_dtype {B} (f : value -> B) b x :
  (forall v, isna v = true -> f v = f VNone) ->
  is_int x = false -> f (as_dtype b x) = f x.
Proof.
  intros H Hx. destruct b; [|reflexivity].
  destruct x; try reflexivity; [|discriminate].
  apply H. reflexivity.
Qed.

(** ** Normalized and cleaned records *)

Record NormalizedRecord : Type := {
  n_title : value;
  n_date : value;
  n_viewers : value;
  n_network : value
}.

Record CleanedRecord : Type := {
  c_title : value;
  c_date : value;
  c_viewers : value;
  c_network : value;
  c_title_clean : value;
  c_viewers_millions : value;
  c_year : value
}.

Definition NORMALIZED_COLUMNS : list str :=
  [S_TITLE; S_DATE; S_VIEWERS; S_NETWORK].

Definition CLEANED_COLUMNS : list str :=
  [S_TITLE; S_DATE; S_VIEWERS; S_NETWORK;
   S_TITLE_CLEAN; S_VIEWERS_MILLIONS; S_YEAR].

Definition normalized_cells (r : NormalizedRecord) : list value :=
  [n_title r; n_date r; n_viewers r; n_network r].

Definition cleaned_cells (c : CleanedRecord) : list value :=
  [c_title c; c_date c; c_viewers c; c_network c;
   c_title_clean c; c_viewers_millions c; c_year c].

(** The frame holding a sequence of normalized records. *)
Definition normalized_frame (rs : list NormalizedRecord) : DataFrame :=
  frame NORMALIZED_COLUMNS normalized_cells rs.

(** The record [r] in the frame built from the records [rs]: each cell
    in the type of its column. *)
Definition typed_record (rs : list NormalizedRecord) (r : NormalizedRecord)
  : NormalizedRecord :=
  {| n_title := typed rs n_title r;
     n_date := typed rs n_date r;
     n_viewers := typed rs n_viewers r;
     n_network := typed rs n_network r |}.

(** The records of the frame [pd.DataFrame] builds from [rs]. *)
Definition typed_records (rs : list NormalizedRecord)
  : list NormalizedRecord :=
  map (typed_record rs) rs.

Section CleanRows.
Context `{RT : Runtime}.

(** The normalized record of one row of a table. *)
Definition normalized_record (rowdict : Dict.dict value) : NormalizedRecord :=
  match normalize_row rowdict with
  | [(_, t); (_, d); (_, v); (_, n)] =>
      {| n_title := t; n_date := d; n_viewers := v; n_network := n |}
  | _ => {| n_title := VNone; n_date := VNone;
            n_viewers := VNone; n_network := VNone |}
  end.

(** The title of a cleaned record. *)
Definition clean_title (v : value) : value :=
  str_method (Re.sub RE_SPACES [SPACE])
    (str_method strip (astype_str (fillna_empty (remove_bracket_refs v)))).

Definition viewers_millions_of (v : value) : value :=
  match parse_viewers v with
  | Ok o => opt_float_value o
  | Raise _ => VNone
  end.

Definition year_of (v : value) : value :=
  match extract_year v with
  | Ok o => opt_int_value o
  | Raise _ => VNone
  end.

(** What the cleaner computes from one record taken alone: the cells
    before they take the type of their column, and before the filter. *)
Definition clean_record (r : NormalizedRecord) : CleanedRecord :=
  let title := clean_title (n_title r) in
  let date := remove_bracket_refs (n_date r) in
  let viewers := remove_bracket_refs (n_viewers r) in
  {| c_title := title;
     c_date := date;
     c_viewers := viewers;
     c_network := remove_bracket_refs (n_network r);
     c_title_clean := str_method str_lower title;
     c_viewers_millions := viewers_millions_of viewers;
     c_year := year_of date |}.

(** The cleaned record of [r] in the frame of the records [rs]: the
    cells of [clean_record r], each in the type of its column.  The two
    title columns hold strings only. *)
Definition cleaned_record (rs : list NormalizedRecord) (r : NormalizedRecord)
  : CleanedRecord :=
  let c := clean_record r in
  {| c_title := c_title c;
     c_date := typed rs (fun x => c_date (clean_record x)) r;
     c_viewers := typed rs (fun x => c_viewers (clean_record x)) r;
     c_network := typed rs (fun x => c_network (clean_record x)) r;
     c_title_clean := c_title_clean c;
     c_viewers_millions :=
       typed rs (fun x => c_viewers_millions (clean_record x)) r;
     c_year := typed rs (fun x => c_year (clean_record x)) r |}.

(** The two tests of the filter. *)
Definition keep (c : CleanedRecord) : bool :=
  negb (isin_empty_none (c_title c)) && negb (isna (c_viewers_millions c)).

Lemma filter_filter {A} (p q : A -> bool) xs :
  filter q (filter p xs) = filter (fun x => p x && q x) xs.
Proof.
  induction xs as [|x xs IH]; simpl; [reflexivity|].
  destruct (p x); simpl; [destruct (q x)|]; simpl; congruence.
Qed.

Lemma filter_of_map {A B} (g : A -> B) (p : B -> bool) xs :
  filter p (map g xs) = map g (filter (fun x => p (g x)) xs).
Proof.
  induction xs as [|x xs IH]; simpl; [reflexivity|].
  destruct (p (g x)); simpl; congruence.
Qed.

Lemma parse_viewers_value v :
  parse_viewers v = Ok (match parse_viewers v with
                        | Ok o => o | Raise _ => None end).
Proof. destruct (parse_viewers_total v) as [r ->]. reflexivity. Qed.

Lemma extract_year_value v :
  extract_year v = Ok (match extract_year v with
                       | Ok o => o | Raise _ => None end).
Proof. destruct (extract_year_total v) as [r ->]. reflexivity. Qed.

Lemma remove_bracket_refs_not_int v :
  is_int (remove_bracket_refs v) = false.
Proof.
  unfold remove_bracket_refs. destruct (isna v) eqn:E; [|reflexivity].
  destruct v; try reflexivity. discriminate.
Qed.

Lemma fillna_empty_na v : isna v = true -> fillna_empty v = fillna_empty VNone.
Proof. intros H. unfold fillna_empty. rewrite H. reflexivity. Qed.

Lemma parse_viewers_na v : isna v = true -> parse_viewers v = parse_viewers VNone.
Proof. intros H. unfold parse_viewers. rewrite H. reflexivity. Qed.

Lemma extract_year_na v : isna v = true -> extract_year v = extract_year VNone.
Proof. intros H. unfold extract_year. rewrite H. reflexivity. Qed.

Lemma strip_columns_step {A} cols (f : A -> list value) xs c cs i :
  index_of c cols = Some i ->
  strip_columns (frame cols f xs) (c :: cs)
  = strip_columns
      (frame cols
         (fun x => list_set (f x) i
                     (typed xs (fun y => remove_bracket_refs (cell i (f y))) x))
         xs)
      cs.
Proof.
  intros H. cbn [strip_columns]. rewrite has_col_frame, H.
  rewrite (col_get_frame _ _ _ _ H). cbn [bind].
  rewrite map_map, infer_objects_map, (col_set_frame _ _ _ _ _ H).
  reflexivity.
Qed.

Lemma strip_columns_normalized rs :
  strip_columns (normalized_frame rs) NORMALIZED_COLUMNS
  = Ok (frame NORMALIZED_COLUMNS
          (fun r => [typed rs (fun x => remove_bracket_refs (n_title x)) r;
                     typed rs (fun x => remove_bracket_refs (n_date x)) r;
                     typed rs (fun x => remove_bracket_refs (n_viewers x)) r;
                     typed rs (fun x => remove_bracket_refs (n_network x)) r])
          rs).
Proof.
  unfold normalized_frame, NORMALIZED_COLUMNS at 2.
  rewrite (@strip_columns_step _ _ _ _ _ _ 0%nat) by reflexivity.
  rewrite (@strip_columns_step _ _ _ _ _ _ 1%nat) by reflexivity.
  rewrite (@strip_columns_step _ _ _ _ _ _ 2%nat) by reflexivity.
  rewrite (@strip_columns_step _ _ _ _ _ _ 3%nat) by reflexivity.
  cbn [strip_columns]. reflexivity.
Qed.

Lemma normalize_title_frame {A} (t d v n : A -> value) xs :
  normalize_title (frame NORMALIZED_COLUMNS (fun r => [t r; d r; v r; n r]) xs)
  = Ok (frame (NORMALIZED_COLUMNS ++ [S_TITLE_CLEAN])
          (fun r =>
             let title :=
               str_method (Re.sub RE_SPACES [SPACE])
                 (str_method strip (astype_str (fillna_empty (t r)))) in
             [title; d r; v r; n r; str_method str_lower title]) xs).
Proof.
  unfold normalize_title. rewrite has_col_frame.
  change (index_of S_TITLE NORMALIZED_COLUMNS) with (Some 0%nat).
  cbv iota.
  rewrite (@col_get_frame _ _ _ _ _ 0%nat) by reflexivity.
  cbn [bind]. rewrite map_map.
  rewrite (@col_set_frame _ _ _ _ _ _ 0%nat) by reflexivity.
  rewrite (@col_get_frame _ _ _ _ _ 0%nat) by reflexivity.
  cbn [bind]. rewrite map_map.
  rewrite (@col_set_frame _ _ _ _ _ _ 0%nat) by reflexivity.
  rewrite (@col_get_frame _ _ _ _ _ 0%nat) by reflexivity.
  cbn [bind]. rewrite map_map.
  rewrite col_add_frame by reflexivity.
  reflexivity.
Qed.

(** The cells the cleaner reads do not depend on the type their column
    took when the references were stripped. *)
Lemma clean_title_typed rs r :
  str_method (Re.sub RE_SPACES [SPACE])
    (str_method strip
       (astype_str
          (fillna_empty
             (typed rs (fun x => remove_bracket_refs (n_title x)) r))))
  = clean_title (n_title r).
Proof.
  unfold clean_title, typed.
  rewrite (na_dtype fillna_empty _ _ fillna_empty_na
             (remove_bracket_refs_not_int _)).
  reflexivity.
Qed.

Lemma viewers_millions_typed rs r :
  opt_float_value
    (match parse_viewers
             (typed rs (fun x => remove_bracket_refs (n_viewers x)) r) with
     | Ok o => o
     | Raise _ => None
     end)
  = c_viewers_millions (clean_record r).
Proof.
  unfold typed.
  rewrite (na_dtype parse_viewers _ _ parse_viewers_na
             (remove_bracket_refs_not_int _)).
  cbn [clean_record c_viewers_millions]. unfold viewers_millions_of.
  destruct (parse_viewers _); reflexivity.
Qed.

Lemma year_typed rs r :
  opt_int_value
    (match extract_year
             (typed rs (fun x => remove_bracket_refs (n_date x)) r) with
     | Ok o => o
     | Raise _ => None
     end)
  = c_year (clean_record r).
Proof.
  unfold typed.
  rewrite (na_dtype extract_year _ _ extract_year_na
             (remove_bracket_refs_not_int _)).
  cbn [clean_record c_year]. unfold year_of.
  destruct (extract_year _); reflexivity.
Qed.

(** The type of a column does not change the outcome of the tests. *)
Lemma keep_cleaned_record rs r :
  keep (cleaned_record rs r) = keep (clean_record r).
Proof.
  unfold keep. cbn [cleaned_record c_title c_viewers_millions].
  rewrite isna_typed. reflexivity.
Qed.

(** The cleaner, row by row: every record is cleaned, its cells take
    the type of their column, and the records that pass both tests are
    kept, in order. *)
Lemma clean_df_rows rs :
  clean_df (normalized_frame rs)
  = Ok (frame CLEANED_COLUMNS cleaned_cells
          (filter keep (map (cleaned_record rs) rs))).
Proof.
  unfold clean_df.
  change [S_TITLE; S_DATE; S_VIEWERS; S_NETWORK] with NORMALIZED_COLUMNS.
  rewrite strip_columns_normalized. cbn [bind].
  rewrite normalize_title_frame. cbn [bind]. cbv zeta.
  rewrite (@col_get_frame _ _ _ _ _ 2%nat) by reflexivity.
  cbn [bind cell nth].
  rewrite (@series_apply_map _ _ parse_viewers
             (fun r => match parse_viewers
                               (typed rs
                                  (fun x => remove_bracket_refs (n_viewers x))
                                  r) with
                       | Ok o => o | Raise _ => None end))
    by (intros x; apply parse_viewers_value).
  cbn [bind]. rewrite map_map, infer_objects_map.
  rewrite col_add_frame by reflexivity.
  rewrite (@col_get_frame _ _ _ _ _ 1%nat) by reflexivity.
  cbn [bind cell nth app].
  rewrite (@series_apply_map _ _ extract_year
             (fun r => match extract_year
                               (typed rs
                                  (fun x => remove_bracket_refs (n_date x))
                                  r) with
                       | Ok o => o | Raise _ => None end))
    by (intros x; apply extract_year_value).
  cbn [bind]. rewrite map_map, infer_objects_map.
  rewrite col_add_frame by reflexivity.
  rewrite (@col_get_frame _ _ _ _ _ 0%nat) by reflexivity.
  cbn [bind cell nth app].
  rewrite map_map, mask_rows_frame.
  rewrite (@col_get_frame _ _ _ _ _ 5%nat) by reflexivity.
  cbn [bind cell nth app].
  rewrite map_map, mask_rows_frame.
  rewrite filter_filter.
  unfold frame. f_equal. f_equal.
  rewrite filter_of_map, map_map.
  rewrite (filter_ext _ (fun x => keep (cleaned_record rs x))).
  - apply map_ext. intros r.
    unfold cleaned_cells. cbn [cleaned_record c_title c_date c_viewers
      c_network c_title_clean c_viewers_millions c_year].
    rewrite clean_title_typed.
    rewrite (typed_ext rs _ _ r (viewers_millions_typed rs)).
    rewrite (typed_ext rs _ _ r (year_typed rs)).
    reflexivity.
  - intros r. unfold keep.
    cbn [cleaned_record c_title c_viewers_millions].
    rewrite clean_title_typed.
    rewrite (typed_ext rs _ _ r (viewers_millions_typed rs)).
    reflexivity.
Qed.
End CleanRows.

(** ** The unifier, row by row *)

Section UnifyRows.
Context `{RT : Runtime}.

Lemma normalize_row_keys rd : Dict.keys (normalize_row rd) = NORMALIZED_COLUMNS.
Proof. reflexivity. Qed.

Lemma normalize_row_fields rd :
  record_field (normalize_row rd) S_TITLE = n_title (normalized_record rd)
  /\ record_field (normalize_row rd) S_DATE = n_date (normalized_record rd)
  /\ record_field (normalize_row rd) S_VIEWERS
     = n_viewers (normalized_record rd)
  /\ record_field (normalize_row rd) S_NETWORK
     = n_network (normalized_record rd).
Proof. repeat split. Qed.

Lemma record_columns_normalized rds :
  record_columns (map normalize_row rds)
  = match rds with [] => [] | _ => NORMALIZED_COLUMNS end.
Proof.
  unfold record_columns.
  destruct rds as [|rd rds]; [reflexivity|].
  cbn [map fold_left]. rewrite normalize_row_keys.
  change (fold_left _ NORMALIZED_COLUMNS []) with NORMALIZED_COLUMNS.
  induction rds as [|rd' rds IH]; [reflexivity|].
  cbn [map fold_left]. rewrite normalize_row_keys.
  change (fold_left _ NORMALIZED_COLUMNS NORMALIZED_COLUMNS)
    with NORMALIZED_COLUMNS.
  exact IH.
Qed.

(** The frame the unifier returns: without any row it has no column. *)
Lemma unify_tables_frame dfs :
  dfs <> [] ->
  unify_tables dfs =
  Ok (match all_rows dfs with
      | [] => {| columns := []; rows := [] |}
      | rds => normalized_frame (typed_records (map normalized_record rds))
      end).
Proof.
  intros Hne. unfold unify_tables.
  destruct dfs as [|df dfs]; [congruence|].
  f_equal. unfold DataFrame_of_records, normalized_rows.
  rewrite record_columns_normalized.
  destruct (all_rows (df :: dfs)) as [|rd rds]; [reflexivity|].
  unfold normalized_frame, frame, typed_records. f_equal.
  rewrite !map_map. apply map_ext. intros x.
  unfold normalized_cells, typed_record, typed, NORMALIZED_COLUMNS.
  cbn [map n_title n_date n_viewers n_network].
  rewrite !map_map. reflexivity.
Qed.



(** Without any row the cleaner stops at the column it needs. *)
Lemma clean_df_no_columns :
  clean_df {| columns := []; rows := [] |} = Raise (KeyError S_VIEWERS).
Proof. reflexivity. Qed.

Lemma keep_spec c :
  keep c = true <->
  c_title c <> VStr [] /\ c_title c <> VNone
  /\ isna (c_viewers_millions c) = false.
Proof.
  unfold keep. rewrite andb_true_iff, !negb_true_iff. split.
  - intros [H1 H2]. repeat split; auto; intros E; rewrite E in H1;
      discriminate.
  - intros (H1 & H2 & H3). split; auto.
    destruct (c_title c) as [|[|]| |]; simpl; congruence.
Qed.

Lemma clean_title_str v : exists t, clean_title v = VStr t.
Proof. unfold clean_title, astype_str. simpl. eauto. Qed.

Lemma parse_viewers_signed v x :
  parse_viewers v = Ok (Some x) -> signed false x.
Proof.
  unfold parse_viewers. destruct (isna v); [discriminate|].
  destruct (search_group1 RE_MILLION _) as [g|].
  { destruct (py_float g) as [y|] eqn:E; simpl; intros H; inversion H.
    subst. eapply py_float_signed; eauto. }
  destruct (search_group1 RE_DIGITS4 _) as [g|].
  { destruct (py_float g) as [y|] eqn:E; simpl; intros H; inversion H.
    apply div_MILLION_signed. eapply py_float_signed; eauto. }
  destruct (search_group1 RE_NUMBER_ONLY _) as [g|]; [|discriminate].
  destruct (py_float g) as [y|] eqn:E; simpl; [|discriminate].
  apply py_float_signed in E.
  destruct (Float.gtb y F_100); simpl; intros H; inversion H; subst; auto.
  apply div_MILLION_signed. exact E.
Qed.

Lemma viewers_millions_of_cases v :
  viewers_millions_of v = VNone
  \/ exists x, viewers_millions_of v = VFloat x /\ signed false x.
Proof.
  unfold viewers_millions_of.
  destruct (parse_viewers v) as [[x|]|] eqn:E; simpl; auto.
  right. exists x. split; auto. eapply parse_viewers_signed; eauto.
Qed.

Lemma keep_viewers r :
  keep (clean_record r) = true ->
  exists x, c_viewers_millions (clean_record r) = VFloat x
            /\ signed false x.
Proof.
  intros H. apply keep_spec in H as (_ & _ & H).
  cbn [clean_record c_viewers_millions] in *.
  destruct (viewers_millions_of_cases
              (remove_bracket_refs (n_viewers r))) as [E | (x & E & Hx)];
    rewrite E in *; [discriminate|eauto].
Qed.

Lemma year_of_cases v :
  year_of v = VNone \/ exists y, year_of v = VInt y.
Proof.
  unfold year_of. destruct (extract_year v) as [[y|]|]; simpl; eauto.
Qed.

End UnifyRows.

(** ** The claims about the unifier and the cleaner *)

Lemma cleaned_record_viewers `{RT : Runtime} rs r x :
  c_viewers_millions (clean_record r) = VFloat x ->
  c_viewers_millions (cleaned_record rs r) = VFloat x.
Proof.
  intros H. cbn [cleaned_record c_viewers_millions]. unfold typed.
  rewrite H. apply as_dtype_float.
Qed.

(** C2. Every record the cleaner returns has a title that is not empty
    and a parsed viewers value; the records returned are exactly those
    of the input that pass both tests, in the order of the input.  The
    tests read the title and the viewers value of the record alone,
    whatever type the columns of the frame take. *)
Theorem clean_df_filter :
  forall (RT : Runtime) (rs : list NormalizedRecord),
    exists out,
      clean_df (normalized_frame rs) = Ok out
      /\ columns out = CLEANED_COLUMNS
      /\ rows out
         = map cleaned_cells (filter keep (map (cleaned_record rs) rs))
      /\ (forall c, keep c = true <->
                    c_title c <> VStr [] /\ c_title c <> VNone
                    /\ isna (c_viewers_millions c) = false)
      /\ (forall r, keep (cleaned_record rs r) = keep (clean_record r))
      /\ (forall r, In r rs -> keep (cleaned_record rs r) = true ->
            (exists t, c_title (cleaned_record rs r) = VStr t /\ t <> [])
            /\ (exists x, c_viewers_millions (cleaned_record rs r) = VFloat x
                          /\ Float.is_nan x = false)).
Proof.
  intros RT rs. eexists. split; [apply clean_df_rows|].
  split; [reflexivity|]. split; [reflexivity|].
  split; [apply keep_spec|]. split; [apply keep_cleaned_record|].
  intros r _ Hk. split.
  - apply keep_spec in Hk as (H1 & _ & _).
    cbn [cleaned_record clean_record c_title] in *.
    destruct (clean_title_str (n_title r)) as [t E].
    rewrite E in *. exists t. split; congruence.
  - rewrite keep_cleaned_record in Hk.
    destruct (keep_viewers _ Hk) as (x & E & Hx).
    exists x. split; [apply cleaned_record_viewers; exact E|].
    eapply signed_not_nan; eauto.
Qed.




(** ** Dictionaries *)






Section Columns.
Context `{RT : Runtime}.




















End Columns.




(** ** The sink file *)

(** The two tables of the end-to-end scenario of the specification. *)
Definition TABLE_A : DataFrame :=
  {| columns := map of_string ["Show"; "Date"; "Viewers"; "Network"]%string;
     rows := [[VStr (of_string "Super Bowl LVII");
               VStr (of_string "Feb 12, 2023[1]");
               VStr (of_string "115.1 million");
               VStr (of_string "Fox")]] |}.

Definition TABLE_B : DataFrame :=
  {| columns := map of_string
                  ["Programme"; "Date"; "Number of viewers (millions)"]%string;
     rows := [[VStr (of_string "Event X");
               VStr (of_string "1999");
               VStr (of_string "invalid")]] |}.

(** The scenario as the extraction hands it on, and what the unifier
    and the cleaner make of it. *)
Definition SCENARIO_TABLES : list DataFrame :=
  [tag_table TABLE_A 0; tag_table TABLE_B 1].

Definition SCENARIO_UNIFIED : DataFrame :=
  Eval vm_compute in
    match @unify_tables ascii_runtime SCENARIO_TABLES with
    | Ok df => df
    | Raise _ => {| columns := []; rows := [] |}
    end.

Definition SCENARIO_CLEANED : DataFrame :=
  Eval vm_compute in
    match @clean_df ascii_runtime SCENARIO_UNIFIED with
    | Ok df => df
    | Raise _ => {| columns := []; rows := [] |}
    end.

Section Sink.
Context `{RT : Runtime}.

(** With a row in the tables both the unifier and the cleaner return. *)
Lemma clean_unified_ok dfs :
  all_rows dfs <> [] ->
  let rs := typed_records (map normalized_record (all_rows dfs)) in
  exists df,
    unify_tables dfs = Ok df
    /\ clean_df df
       = Ok (frame CLEANED_COLUMNS cleaned_cells
               (filter keep (map (cleaned_record rs) rs))).
Proof.
  intros Hr rs.
  assert (Hne : dfs <> []) by (intros ->; apply Hr; reflexivity).
  rewrite (unify_tables_frame Hne). subst rs.
  destruct (all_rows dfs) as [|rd rds]; [congruence|].
  eexists. split; [reflexivity|]. apply clean_df_rows.
Qed.
End Sink.

(** C8, as stated, fails: the tables carry the source-table index, and
    the file written has no such column. *)
Lemma sink_without_source_index :
  forallb (fun df => has_col df S_SOURCE_INDEX) SCENARIO_TABLES = true
  /\ @unify_tables ascii_runtime SCENARIO_TABLES = Ok SCENARIO_UNIFIED
  /\ @clean_df ascii_runtime SCENARIO_UNIFIED = Ok SCENARIO_CLEANED
  /\ existsb (str_eqb S_SOURCE_INDEX)
       (header (to_csv SCENARIO_CLEANED false)) = false.
Proof. repeat split; vm_compute; reflexivity. Qed.

(** ** The publisher *)


Definition is_ok (a : answer) : bool :=
  match a with Returned _ => true | Failed _ => false end.

(** The sends of a trace, in order, each with its outcome. *)
Fixpoint sends (tr : trace) : list (str * message * bool) :=
  match tr with
  | [] => []
  | Called (ProducerSend t m) a :: tr' => (t, m, is_ok a) :: sends tr'
  | _ :: tr' => sends tr'
  end.

(** The number of sends that succeeded. *)
Definition successes (tr : trace) : nat :=
  List.length (filter (fun x => snd x) (sends tr)).

(** The titles of the failure lines of a trace, in order. *)
Fixpoint failed_titles (tr : trace) : list value :=
  match tr with
  | [] => []
  | Printed (LSendFailed title _) :: tr' => title :: failed_titles tr'
  | _ :: tr' => failed_titles tr'
  end.

(** [int(y) if pd.notna(y) else None] for the year cell of a cleaned
    record, which holds an integer, a float or a missing value. *)
Definition year_field (y : value) : value :=
  match y with
  | VInt z => VInt z
  | VFloat f => match float_trunc f with Ok z => VInt z | Raise _ => VNone end
  | _ => VNone
  end.

(** The message of a record the cleaner returns: its cells, the year
    as an integer or [None] whatever the type of the year column. *)
Definition message_of (c : CleanedRecord) : message :=
  {| m_title := c_title c;
     m_title_clean := c_title_clean c;
     m_date := c_date c;
     m_year := year_field (c_year c);
     m_viewers_millions := c_viewers_millions c;
     m_network := c_network c |}.

(** How a run of the publisher ends after the sends: the flush fails,
    or the close fails, or the count is printed. *)
Definition closing (res : res unit) (tail : trace) (sent : nat) (topic : str)
  : Prop :=
  (exists e, res = Raise e /\ tail = [Called ProducerFlush (Failed e)])
  \/ (exists y e,
        res = Raise e
        /\ tail = [Called ProducerFlush (Returned y);
                   Called ProducerClose (Failed e)])
  \/ (exists y z,
        res = Ok tt
        /\ tail = [Called ProducerFlush (Returned y);
                   Called ProducerClose (Returned z);
                   Printed (LProduced sent topic)]).

(** What the sending loop leaves in the trace. *)
Definition loop_event (e : event) : Prop :=
  match e with
  | Called (ProducerSend _ _) _ => True
  | Printed (LSendFailed _ _) => True
  | _ => False
  end.

(** What the provisioning of the topic leaves in the trace. *)
Definition admin_event (e : event) : Prop :=
  match e with
  | Called (AdminConnect _ _) _ => True
  | Called (CreateTopics _ _ _) _ => True
  | Printed (LCreated _) => True
  | Printed (LExists _) => True
  | Printed (LTopicWarning _) => True
  | Printed (LAdminWarning _) => True
  | _ => False
  end.

Lemma sends_app a b : sends (a ++ b) = sends a ++ sends b.
Proof.
  induction a as [|e a IH]; [reflexivity|].
  destruct e as [[] ?|]; simpl; rewrite IH; reflexivity.
Qed.

Lemma successes_app a b : successes (a ++ b) = (successes a + successes b)%nat.
Proof.
  unfold successes. rewrite sends_app, filter_app, length_app. reflexivity.
Qed.

Lemma failed_titles_app a b :
  failed_titles (a ++ b) = failed_titles a ++ failed_titles b.
Proof.
  induction a as [|e a IH]; [reflexivity|].
  destruct e as [?|[]]; simpl; rewrite IH; reflexivity.
Qed.

Lemma sends_admin tr : Forall admin_event tr -> sends tr = [].
Proof.
  induction 1 as [|e tr He _ IH]; [reflexivity|].
  destruct e as [[] ?|[]]; simpl in *; try contradiction; exact IH.
Qed.

Section PublisherFacts.
Context `{RT : Runtime}.
Variable world : trace -> call -> answer.



(** The provisioning never fails the publisher and sends nothing. *)
Lemma admin_part_spec bootstrap topic tr0 :
  exists trA,
    IO.try_with
      (_ <-- IO.do_call world (AdminConnect bootstrap 10000) ;;
       ensure_topic world topic)
      (fun e => IO.print (LAdminWarning e)) tr0
    = (Ok tt, tr0 ++ trA)
    /\ Forall admin_event trA.
Proof.
  unfold IO.try_with, IO.bind, IO.do_call, ensure_topic, IO.try_with,
    IO.bind, IO.do_call, IO.print.
  destruct (world tr0 (AdminConnect bootstrap 10000)) as [x|e].
  - destruct (world (tr0 ++ [Called (AdminConnect bootstrap 10000)
                                    (Returned x)])
                (CreateTopics topic 1 1)) as [y|e].
    + eexists [_; _; _]. split.
      * rewrite <- !app_assoc. reflexivity.
      * repeat constructor.
    + destruct e; (eexists [_; _; _]; split;
        [rewrite <- !app_assoc; reflexivity | repeat constructor]).
  - eexists [_; _]. split.
    + rewrite <- !app_assoc. reflexivity.
    + repeat constructor.
Qed.
End PublisherFacts.

(** *** Steps of a run *)

Lemma bind_ok {A B} (m : IO.IO A) (f : A -> IO.IO B) tr a tr' :
  m tr = (Ok a, tr') -> IO.bind m f tr = f a tr'.
Proof. intros H. unfold IO.bind. rewrite H. reflexivity. Qed.

Lemma bind_raise {A B} (m : IO.IO A) (f : A -> IO.IO B) tr e tr' :
  m tr = (Raise e, tr') -> IO.bind m f tr = (Raise e, tr').
Proof. intros H. unfold IO.bind. rewrite H. reflexivity. Qed.

Lemma do_call_returned world c tr x :
  world tr c = Returned x ->
  IO.do_call world c tr = (Ok x, tr ++ [Called c (Returned x)]).
Proof. intros H. unfold IO.do_call. rewrite H. reflexivity. Qed.

Lemma do_call_failed world c tr e :
  world tr c = Failed e ->
  IO.do_call world c tr = (Raise e, tr ++ [Called c (Failed e)]).
Proof. intros H. unfold IO.do_call. rewrite H. reflexivity. Qed.

Lemma admin_no_produced tr n t :
  Forall admin_event tr -> ~ In (Printed (LProduced n t)) tr.
Proof.
  intros H Hin. rewrite Forall_forall in H. apply (H _ Hin).
Qed.

Lemma admin_no_connect tr b r a :
  Forall admin_event tr -> ~ In (Called (ProducerConnect b r) a) tr.
Proof.
  intros H Hin. rewrite Forall_forall in H. apply (H _ Hin).
Qed.

Lemma loop_no_produced tr n t :
  Forall loop_event tr -> ~ In (Printed (LProduced n t)) tr.
Proof.
  intros H Hin. rewrite Forall_forall in H. apply (H _ Hin).
Qed.

Lemma successes_admin tr : Forall admin_event tr -> successes tr = O.
Proof. intros H. unfold successes. rewrite (sends_admin H). reflexivity. Qed.

(** *** The messages of the records the cleaner returns *)

(** [int(float(z))] gives [z] back, checked for the integers a year
    can be. *)
Definition trunc_back (z : Z) : bool :=
  match float_trunc (Float.of_Z z) with
  | Ok z' => Z.eqb z' z
  | Raise _ => false
  end.

Fixpoint trunc_back_from (k : nat) (z : Z) : bool :=
  match k with
  | O => true
  | S k' => trunc_back z && trunc_back_from k' (Z.succ z)
  end.

Lemma trunc_back_from_spec k : forall z0 z,
  trunc_back_from k z0 = true -> (z0 <= z < z0 + Z.of_nat k)%Z ->
  trunc_back z = true.
Proof.
  induction k as [|k IH]; intros z0 z H Hz; [lia|].
  cbn [trunc_back_from] in H. apply andb_prop in H as [H1 H2].
  destruct (Z.eq_dec z z0) as [->|Hne]; [exact H1|].
  apply (IH (Z.succ z0)); [exact H2|lia].
Qed.

Lemma trunc_back_years : trunc_back_from (N.to_nat 10000) 0%Z = true.
Proof. vm_compute. reflexivity. Qed.

Lemma float_trunc_of_Z z :
  (0 <= z <= 9999)%Z -> float_trunc (Float.of_Z z) = Ok z.
Proof.
  intros Hz.
  assert (H : trunc_back z = true).
  { apply (@trunc_back_from_spec _ 0%Z z trunc_back_years).
    rewrite N_nat_Z. change (Z.of_N 10000) with 10000%Z. lia. }
  unfold trunc_back in H.
  destruct (float_trunc (Float.of_Z z)) as [z'|]; [|discriminate].
  apply Z.eqb_eq in H. congruence.
Qed.

Lemma combine_map_l {A B C} (g : A -> B) (l : list A) (l' : list C) :
  combine (map g l) l' = map (fun x => (g (fst x), snd x)) (combine l l').
Proof.
  revert l'. induction l as [|a l IH]; intros [|c l']; simpl; try reflexivity.
  rewrite IH. reflexivity.
Qed.

Section PublisherRows.
Context `{RT : Runtime}.
Variable world : trace -> call -> answer.

Lemma year_of_range v y : year_of v = VInt y -> (0 <= y <= 9999)%Z.
Proof.
  unfold year_of, extract_year.
  destruct (isna v); [discriminate|].
  destruct (search_group1 RE_YEAR _) as [g|] eqn:E; [|discriminate].
  apply search_YEAR_some in E as (pre & post & _ & L & _ & _).
  destruct (py_int 0 g) as [z|] eqn:Ez; simpl; [|discriminate].
  intros H. inversion H; subst.
  apply py_int_bound in Ez. rewrite L in Ez. simpl in Ez. lia.
Qed.

(** The year of the message is the year the record has, whichever type
    the year column took. *)
Lemma year_cell b y0 :
  y0 = VNone \/ (exists y, y0 = VInt y /\ (0 <= y <= 9999)%Z) ->
  (if negb (isna (as_dtype b y0))
   then z <- int_of_value (as_dtype b y0) ;; Ok (VInt z)
   else Ok VNone) = Ok (year_field (as_dtype b y0))
  /\ year_field (as_dtype b y0) = y0.
Proof.
  intros [->|(y & -> & Hy)]; destruct b; cbn [as_dtype to_float].
  - split; reflexivity.
  - split; reflexivity.
  - cbn [isna]. rewrite of_Z_not_nan.
    cbn [negb int_of_value year_field].
    rewrite (float_trunc_of_Z Hy). split; reflexivity.
  - split; reflexivity.
Qed.

Lemma build_msg_cleaned_record rs r :
  keep (cleaned_record rs r) = true ->
  build_msg CLEANED_COLUMNS (cleaned_cells (cleaned_record rs r))
  = Ok (message_of (cleaned_record rs r))
  /\ m_year (message_of (cleaned_record rs r)) = c_year (clean_record r).
Proof.
  intros Hk. rewrite keep_cleaned_record in Hk.
  destruct (keep_viewers _ Hk) as (x & Ex & Hx).
  pose proof (cleaned_record_viewers rs _ Ex) as Ev.
  assert (Hy0 : c_year (clean_record r) = VNone
                \/ exists y, c_year (clean_record r) = VInt y
                             /\ (0 <= y <= 9999)%Z).
  { cbn [clean_record c_year].
    destruct (year_of_cases (remove_bracket_refs (n_date r)))
      as [E | [y E]]; [left; exact E|right].
    exists y. split; [exact E|]. eapply year_of_range; eauto. }
  destruct (year_cell
              (as_floats (map (fun x => c_year (clean_record x)) rs)) Hy0)
    as [H1 H2].
  set (c := cleaned_record rs r) in *.
  split; [|exact H2].
  unfold build_msg.
  change (series_item CLEANED_COLUMNS (cleaned_cells c) S_YEAR)
    with (Ok (c_year c)).
  change (series_item CLEANED_COLUMNS (cleaned_cells c) S_VIEWERS_MILLIONS)
    with (Ok (c_viewers_millions c)).
  change (series_get CLEANED_COLUMNS (cleaned_cells c) S_TITLE)
    with (c_title c).
  change (series_get CLEANED_COLUMNS (cleaned_cells c) S_TITLE_CLEAN)
    with (c_title_clean c).
  change (series_get CLEANED_COLUMNS (cleaned_cells c) S_DATE)
    with (c_date c).
  change (series_get CLEANED_COLUMNS (cleaned_cells c) S_NETWORK)
    with (c_network c).
  cbn [bind].
  change (c_year c)
    with (as_dtype (as_floats (map (fun x => c_year (clean_record x)) rs))
            (c_year (clean_record r))) at 1 2.
  rewrite H1. cbn [bind]. unfold message_of.
  rewrite Ev. cbn [isna]. rewrite (@signed_not_nan _ _ Hx). reflexivity.
Qed.

(** The messages of the records the cleaner returns can all be built. *)
Lemma kept_messages rs :
  let kept := filter keep (map (cleaned_record rs) rs) in
  Forall2 (fun row m => build_msg CLEANED_COLUMNS row = Ok m)
          (map cleaned_cells kept) (map message_of kept).
Proof.
  intros kept.
  assert (H : Forall (fun c => build_msg CLEANED_COLUMNS (cleaned_cells c)
                               = Ok (message_of c)) kept).
  { apply Forall_forall. intros c Hc. subst kept.
    apply filter_In in Hc as [Hin Hk].
    apply in_map_iff in Hin as (r & <- & _).
    apply build_msg_cleaned_record. exact Hk. }
  induction H as [|c l Hc _ IH]; simpl; constructor; auto.
Qed.

(** The loop on rows whose messages can be built: every row is sent, in
    order, whatever happens to the sends before it; a send that fails
    leaves one line with the title of its row; and the counter counts
    the sends that succeeded. *)
Lemma send_loop_rows topic cols : forall sent tr0 rows msgs,
  Forall2 (fun row m => build_msg cols row = Ok m) rows msgs ->
  exists tr1,
    send_loop world topic cols rows sent tr0
    = (Ok (sent + successes tr1)%nat, tr0 ++ tr1)
    /\ map fst (sends tr1) = map (pair topic) msgs
    /\ failed_titles tr1
       = map (fun x => series_get cols (fst x) S_TITLE)
             (filter (fun x => negb (snd x))
                     (combine rows (map snd (sends tr1))))
    /\ (successes tr1 + List.length (failed_titles tr1))%nat
       = List.length rows
    /\ Forall loop_event tr1.
Proof.
  intros sent tr0 rows msgs H. revert sent tr0.
  induction H as [|row m rows msgs Hm _ IH]; intros sent tr0.
  - exists []. simpl. rewrite app_nil_r, Nat.add_0_r. repeat split; auto.
  - cbn [send_loop]. rewrite Hm.
    unfold IO.bind at 1. unfold IO.lift at 1.
    unfold IO.bind at 1. unfold IO.try_with at 1.
    unfold IO.bind at 1. unfold IO.do_call at 1.
    destruct (world tr0 (ProducerSend topic m)) as [x|e] eqn:Ew.
    + unfold IO.ret at 1.
      destruct (IH (S sent)
                  (tr0 ++ [Called (ProducerSend topic m) (Returned x)]))
        as (tr1 & E & Hs & Hf & Hc & Hl).
      rewrite E.
      exists (Called (ProducerSend topic m) (Returned x) :: tr1).
      repeat split.
      * rewrite <- app_assoc. simpl. f_equal. f_equal.
        unfold successes. simpl. lia.
      * simpl. rewrite Hs. reflexivity.
      * simpl. exact Hf.
      * unfold successes in *. simpl. lia.
      * constructor; [exact I|exact Hl].
    + unfold IO.bind at 1. unfold IO.print at 1. unfold IO.ret at 1.
      set (title := series_get cols row S_TITLE).
      destruct (IH sent
                  ((tr0 ++ [Called (ProducerSend topic m) (Failed e)])
                   ++ [Printed (LSendFailed title e)]))
        as (tr1 & E & Hs & Hf & Hc & Hl).
      rewrite E.
      exists (Called (ProducerSend topic m) (Failed e)
              :: Printed (LSendFailed title e) :: tr1).
      repeat split.
      * rewrite <- !app_assoc. simpl. f_equal.
      * simpl. rewrite Hs. reflexivity.
      * simpl. rewrite Hf. reflexivity.
      * unfold successes in *. simpl. simpl in Hc. lia.
      * repeat constructor; exact Hl.
Qed.

(** A run of the publisher on rows whose messages can be built. *)
Lemma produce_rows bootstrap topic df msgs tr0 :
  Forall2 (fun row m => build_msg (columns df) row = Ok m) (rows df) msgs ->
  let run := produce_to_kafka world df bootstrap topic tr0 in
  let PC := ProducerConnect bootstrap 5 in
  exists trA,
    Forall admin_event trA
    /\ ((exists e,
           world (tr0 ++ trA) PC = Failed e
           /\ run = (Raise e, tr0 ++ trA ++ [Called PC (Failed e)]))
        \/ (exists x trS res tail,
              world (tr0 ++ trA) PC = Returned x
              /\ run = (res,
                        tr0 ++ trA ++ [Called PC (Returned x)] ++ trS ++ tail)
              /\ Forall loop_event trS
              /\ map fst (sends trS) = map (pair topic) msgs
              /\ closing res tail (successes trS) topic)).
Proof.
  intros Hm run PC. subst run. unfold produce_to_kafka.
  destruct (admin_part_spec world bootstrap topic tr0) as (trA & EA & HA).
  rewrite (bind_ok _ _ _ EA). fold PC.
  exists trA. split; [exact HA|].
  destruct (world (tr0 ++ trA) PC) as [x|e] eqn:EC.
  - right. rewrite (bind_ok _ _ _ (do_call_returned _ _ _ EC)).
    destruct (send_loop_rows topic (columns df) O
                ((tr0 ++ trA) ++ [Called PC (Returned x)]) Hm)
      as (trS & ES & HS & _ & _ & HL).
    rewrite (bind_ok _ _ _ ES). cbn [Nat.add].
    set (tr2 := (((tr0 ++ trA) ++ [Called PC (Returned x)]) ++ trS)).
    exists x, trS.
    destruct (world tr2 ProducerFlush) as [y|e] eqn:EF.
    + rewrite (bind_ok _ _ _ (do_call_returned _ _ _ EF)).
      destruct (world (tr2 ++ [Called ProducerFlush (Returned y)])
                  ProducerClose) as [z|e] eqn:ECl.
      * rewrite (bind_ok _ _ _ (do_call_returned _ _ _ ECl)).
        exists (Ok tt),
          [Called ProducerFlush (Returned y);
           Called ProducerClose (Returned z);
           Printed (LProduced (successes trS) topic)].
        split; [reflexivity|]. split.
        { unfold IO.print. subst tr2. rewrite <- !app_assoc. reflexivity. }
        split; [exact HL|]. split; [exact HS|].
        right. right. exists y, z. auto.
      * rewrite (bind_raise _ _ _ (do_call_failed _ _ _ ECl)).
        exists (Raise e),
          [Called ProducerFlush (Returned y);
           Called ProducerClose (Failed e)].
        split; [reflexivity|]. split.
        { subst tr2. rewrite <- !app_assoc. reflexivity. }
        split; [exact HL|]. split; [exact HS|].
        right. left. exists y, e. auto.
    + rewrite (bind_raise _ _ _ (do_call_failed _ _ _ EF)).
      exists (Raise e), [Called ProducerFlush (Failed e)].
      split; [reflexivity|]. split.
      { subst tr2. rewrite <- !app_assoc. reflexivity. }
      split; [exact HL|]. split; [exact HS|].
      left. exists e. auto.
  - left. rewrite (bind_raise _ _ _ (do_call_failed _ _ _ EC)).
    exists e. split; [reflexivity|].
    rewrite <- !app_assoc. reflexivity.
Qed.
End PublisherRows.

(** C7. In the publisher a send that fails is caught.  Whatever the
    broker answers, the publisher first provisions the topic and asks
    for the producer; when the broker grants it, the messages of all the
    records are sent, in order, whatever the outcome of the sends before
    them, and then the producer is flushed and closed; the count the
    publisher reports is the number of sends that succeeded. *)
Theorem publisher_isolation :
  forall (RT : Runtime) (world : trace -> call -> answer)
         (bootstrap topic : str) (rs : list NormalizedRecord) (tr0 : trace),
    let kept := filter keep (map (cleaned_record rs) rs) in
    let run := produce_to_kafka world
                 (frame CLEANED_COLUMNS cleaned_cells kept)
                 bootstrap topic tr0 in
    let PC := ProducerConnect bootstrap 5 in
    exists trA,
      Forall admin_event trA
      /\ ((exists e,
             world (tr0 ++ trA) PC = Failed e
             /\ run = (Raise e, tr0 ++ trA ++ [Called PC (Failed e)]))
          \/ (exists x trS res tail,
                world (tr0 ++ trA) PC = Returned x
                /\ run = (res,
                          tr0 ++ trA ++ [Called PC (Returned x)]
                          ++ trS ++ tail)
                /\ Forall loop_event trS
                /\ map fst (sends trS)
                   = map (fun c => (topic, message_of c)) kept
                /\ closing res tail (successes trS) topic)).
Proof.
  intros RT world bootstrap topic rs tr0 kept run PC.
  destruct (produce_rows world bootstrap topic
              (frame CLEANED_COLUMNS cleaned_cells kept) tr0
              (kept_messages rs))
    as (trA & HA & Hcases).
  exists trA. split; [exact HA|].
  destruct Hcases as [(e & Ew & E) | (x & trS & res & tail & Ew & E & HL
                                      & HS & Hcl)].
  - left. exists e. auto.
  - right. exists x, trS, res, tail.
    repeat split; auto. rewrite HS, map_map. reflexivity.
Qed.

(** ** Further properties of the cleaning helpers *)

Lemma not_all_dot b : forallb is_dot b = false -> In NL b.
Proof.
  induction b as [|c b IH]; simpl; [discriminate|].
  unfold is_dot at 1. destruct (N.eqb_spec c NL) as [->|Hc]; simpl.
  - auto.
  - intros H. right. apply IH. exact H.
Qed.

(** In a text without a span, a line break stands between any opening
    bracket and a closing bracket after it. *)
Lemma nospan_spec t a b c :
  nospan t -> t = a ++ LBRACKET :: b ++ RBRACKET :: c -> In NL b.
Proof.
  unfold nospan. intros H ->.
  apply scan_suffix in H. simpl in H.
  apply scan_true_close in H.
  destruct (forallb is_dot b) eqn:E.
  - exfalso. eapply close_dots; eauto.
  - apply not_all_dot. exact E.
Qed.

Lemma no_lbracket_nospan s : ~ In LBRACKET s -> nospan s.
Proof.
  unfold nospan. induction s as [|c s IH]; intros H; [reflexivity|].
  simpl. destruct (c =? RBRACKET).
  - simpl. apply IH. intros Hin. apply H. right. exact Hin.
  - destruct (N.eqb_spec c LBRACKET) as [->|Hc].
    + exfalso. apply H. left. reflexivity.
    + assert (IH' : scan false s = true)
        by (apply IH; intros Hin; apply H; right; exact Hin).
      destruct (c =? NL); exact IH'.
Qed.

Lemma no_first_char_contains (s : str) :
  ~ In 226 s -> ~ contains DAGGER s.
Proof.
  intros H (a & b & ->). apply H.
  apply in_or_app. right. left. reflexivity.
Qed.

(** X1. Whatever is passed in, [remove_bracket_refs] returns either the
    missing value it was given or a string; that string has no white
    space at its ends, and any opening bracket left in it has no closing
    bracket after it on its line. *)
Theorem remove_bracket_refs_result :
  forall (RT : Runtime) (v : value),
    (isna v = true /\ remove_bracket_refs v = v)
    \/ (isna v = false
        /\ exists t,
             remove_bracket_refs v = VStr t
             /\ trimmed t
             /\ forall a b c,
                  t = a ++ LBRACKET :: b ++ RBRACKET :: c -> In NL b).
Proof.
  intros RT v. unfold remove_bracket_refs.
  destruct (isna v) eqn:E; [left; auto|right].
  split; [reflexivity|].
  exists (strip_refs (py_str v)). split; [reflexivity|].
  split; [apply strip_refs_trimmed|].
  intros a b c Ht. eapply nospan_spec; [apply strip_refs_nospan|exact Ht].
Qed.

(** X2. A string with no opening bracket and without the first
    character of the dagger artifact is only trimmed. *)
Theorem remove_bracket_refs_plain :
  forall (RT : Runtime) (s : str),
    ~ In LBRACKET s -> ~ In 226 s ->
    remove_bracket_refs (VStr s) = VStr (strip s).
Proof.
  intros RT s Hb Hd. rewrite remove_bracket_refs_str. f_equal.
  unfold strip_refs.
  rewrite (sub_BRACKET_fix (@no_lbracket_nospan s Hb)).
  rewrite (sub_DAGGER_fix (@no_first_char_contains s Hd)).
  reflexivity.
Qed.

Lemma remove_bracket_refs_plain_witness :
  ~ In LBRACKET (of_string " Fox ") /\ ~ In 226 (of_string " Fox ")
  /\ @remove_bracket_refs ascii_runtime (VStr (of_string " Fox "))
     = VStr (strip (of_string " Fox ")).
Proof.
  assert (H1 : ~ In LBRACKET (of_string " Fox ")).
  { simpl. intros [H|[H|[H|[H|[H|[]]]]]]; discriminate. }
  assert (H2 : ~ In 226 (of_string " Fox ")).
  { simpl. intros [H|[H|[H|[H|[H|[]]]]]]; discriminate. }
  split; [exact H1|]. split; [exact H2|].
  apply (@remove_bracket_refs_plain ascii_runtime _ H1 H2).
Defined.

(** X3. A year [extract_year] returns lies between 0 and 9999. *)
Theorem extract_year_range :
  forall (RT : Runtime) (v : value) (y : Z),
    extract_year v = Ok (Some y) -> (0 <= y <= 9999)%Z.
Proof.
  intros RT v y. unfold extract_year.
  destruct (isna v); [discriminate|].
  destruct (search_group1 RE_YEAR _) as [g|] eqn:E; [|discriminate].
  apply search_YEAR_some in E as (pre & post & _ & L & _ & _).
  destruct (py_int 0 g) as [z|] eqn:Ez; simpl; [|discriminate].
  intros H. inversion H; subst.
  apply py_int_bound in Ez. rewrite L in Ez. simpl in Ez. lia.
Qed.

Lemma extract_year_range_witness :
  @extract_year ascii_runtime (VStr (of_string "March 3, 2008[a]"))
  = Ok (Some 2008%Z)
  /\ (0 <= 2008 <= 9999)%Z.
Proof.
  assert (H : @extract_year ascii_runtime
                (VStr (of_string "March 3, 2008[a]")) = Ok (Some 2008%Z))
    by (vm_compute; reflexivity).
  split; [exact H|].
  apply (@extract_year_range ascii_runtime _ _ H).
Defined.

(** X4. When the tables have no row at all the unifier still returns,
    with a frame that has no column, and it is the cleaner that stops,
    on the column [viewers] it cannot find. *)
Theorem pipeline_without_rows :
  forall (RT : Runtime) (dfs : list DataFrame),
    dfs <> [] -> all_rows dfs = [] ->
    exists df,
      unify_tables dfs = Ok df
      /\ columns df = [] /\ rows df = []
      /\ clean_df df = Raise (KeyError S_VIEWERS).
Proof.
  intros RT dfs Hne Hr. rewrite (unify_tables_frame Hne), Hr.
  eexists. split; [reflexivity|]. repeat split.
Qed.

Lemma pipeline_without_rows_witness :
  [{| columns := [S_TITLE]; rows := [] |}] <> []
  /\ all_rows [{| columns := [S_TITLE]; rows := [] |}] = []
  /\ exists df,
       @unify_tables ascii_runtime [{| columns := [S_TITLE]; rows := [] |}]
       = Ok df
       /\ columns df = [] /\ rows df = []
       /\ @clean_df ascii_runtime df = Raise (KeyError S_VIEWERS).
Proof.
  assert (H1 : [{| columns := [S_TITLE]; rows := [] |}] <> [])
    by discriminate.
  assert (H2 : all_rows [{| columns := [S_TITLE]; rows := [] |}] = [])
    by reflexivity.
  split; [exact H1|]. split; [exact H2|].
  apply (@pipeline_without_rows ascii_runtime _ H1 H2).
Defined.



(** ** White space in titles *)

Lemma skipn_take_while p s :
  skipn (List.length (take_while p s)) s = drop_while p s.
Proof.
  induction s as [|c s IH]; simpl; [reflexivity|].
  destruct (p c); simpl; auto.
Qed.

Lemma match_SPACES bos s :
  match_here RE_SPACES bos s =
  let g := take_while is_space s in
  if Nat.leb 1 (List.length g) then Some (List.length g, None) else None.
Proof.
  unfold match_here, RE_SPACES. cbn [rmatch].
  rewrite rep_greedy_total by discriminate.
  cbv zeta.
  destruct (Nat.leb 1 (List.length (take_while is_space s))); auto.
  pose proof (take_drop_while is_space s) as E.
  set (g := take_while is_space s) in *.
  set (d := drop_while is_space s) in *.
  clearbody g d. subst s. rewrite len_app_sub. reflexivity.
Qed.

(** No two white-space characters are adjacent. *)
Fixpoint single_spaced (t : str) : bool :=
  match t with
  | c :: (d :: _) as t' => negb (is_space c && is_space d) && single_spaced t'
  | _ => true
  end.

Lemma single_spaced_spec t : forall a c d b,
  single_spaced t = true -> t = a ++ c :: d :: b ->
  is_space c = true -> is_space d = false.
Proof.
  intros a. revert t.
  induction a as [|x a IH]; intros t c d b H -> Hc.
  - simpl in H. rewrite Hc in H. simpl in H.
    apply andb_prop in H as [H _]. apply negb_true_iff in H. exact H.
  - eapply (IH (a ++ c :: d :: b)); eauto.
    simpl in H. destruct (a ++ c :: d :: b); [reflexivity|].
    apply andb_prop in H as [_ H]. exact H.
Qed.

(** What [re.sub(r'\s+', ' ', s)] returns. *)
Definition spaces_collapsed (s out : str) : Prop :=
  Forall (fun c => is_space c = true -> c = SPACE) out
  /\ single_spaced out = true
  /\ (forall c x, out = c :: x -> is_space c = true ->
        exists d y, s = d :: y /\ is_space d = true)
  /\ (forall x c, out = x ++ [c] -> is_space c = true ->
        exists y d, s = y ++ [d] /\ is_space d = true)
  /\ (out = [] -> s = []).

Lemma sub_SPACES_collapsed s : spaces_collapsed s (Re.sub RE_SPACES [SPACE] s).
Proof.
  unfold Re.sub.
  apply (@sub_ind RE_SPACES [SPACE] (fun _ s out => spaces_collapsed s out)).
  - apply nonempty_SPACES.
  - intros _. repeat split; auto.
    + intros c x H. discriminate.
    + intros x c H. destruct x; discriminate.
  - intros b c t out Hm -> (A & B & C & D & E).
    rewrite match_SPACES in Hm. cbv zeta in Hm. simpl take_while in Hm.
    destruct (is_space c) eqn:Hc; [discriminate|]. clear Hm.
    repeat split.
    + constructor; [congruence|exact A].
    + simpl. rewrite Hc. simpl.
      destruct (sub_from RE_SPACES [SPACE] false t 0); auto.
    + intros c0 x H Hs. inversion H; subst. congruence.
    + intros x c0 H Hs. destruct x as [|x0 x].
      * simpl in H. inversion H; subst. congruence.
      * simpl in H. inversion H as [[H0 H1]].
        destruct (D x c0 H1 Hs) as (y & d & -> & Hd).
        exists (x0 :: y), d. auto.
    + discriminate.
  - intros b t n cap out Hm -> (A & B & C & D & E).
    rewrite match_SPACES in Hm. cbv zeta in Hm.
    destruct (Nat.leb 1 (List.length (take_while is_space t))) eqn:L;
      [|discriminate].
    inversion Hm as [[Hn]]. clear Hm.
    rewrite <- Hn, skipn_take_while in *.
    pose proof (take_drop_while is_space t) as Et.
    pose proof (take_while_all is_space t) as Hall.
    apply Nat.leb_le in L.
    destruct (take_while is_space t) as [|w0 ws] eqn:Etw;
      [simpl in L; lia|].
    repeat split.
    + simpl. constructor; [auto|exact A].
    + simpl.
      destruct (sub_from RE_SPACES [SPACE] false (drop_while is_space t) 0)
        as [|o0 os] eqn:Eo; [reflexivity|].
      destruct (is_space o0) eqn:Ho.
      * exfalso. destruct (C o0 os eq_refl Ho) as (d & y & Ed & Hd).
        apply drop_while_head in Ed. congruence.
      * simpl. exact B.
    + intros c x Hout Hs. exists w0, (ws ++ drop_while is_space t).
      split; [symmetry; exact Et|].
      simpl in Hall. apply andb_prop in Hall as [Hw _]. exact Hw.
    + intros x c Hout Hs. destruct x as [|x0 x].
      * simpl in Hout. injection Hout as H0 H1.
        rewrite (E H1) in Et. rewrite app_nil_r in Et.
        destruct (@exists_last _ (w0 :: ws)) as (y & d & Ey);
          [discriminate|].
        exists y, d. split; [congruence|].
        rewrite Ey, forallb_app in Hall.
        apply andb_prop in Hall as [_ Hd]. simpl in Hd.
        apply andb_prop in Hd as [Hd _]. exact Hd.
      * simpl in Hout. injection Hout as H0 H1.
        destruct (D x c H1 Hs) as (y & d & Ed & Hd).
        exists ((w0 :: ws) ++ y), d. split; [|exact Hd].
        rewrite <- app_assoc, <- Ed. symmetry. exact Et.
    + discriminate.
Qed.

(** X6. The title of a cleaned record is a string without white space
    at its ends, whose only white-space characters are single spaces:
    every run of white space inside has become one space. *)
Theorem title_whitespace :
  forall (RT : Runtime) (r : NormalizedRecord),
    exists t,
      c_title (clean_record r) = VStr t
      /\ trimmed t
      /\ (forall c, In c t -> is_space c = true -> c = SPACE)
      /\ (forall a c d b,
            t = a ++ c :: d :: b -> is_space c = true -> is_space d = false).
Proof.
  intros RT r. cbn [clean_record c_title]. unfold clean_title.
  cbn [astype_str str_method].
  set (u := strip (py_str (fillna_empty (remove_bracket_refs (n_title r))))).
  exists (Re.sub RE_SPACES [SPACE] u). split; [reflexivity|].
  destruct (sub_SPACES_collapsed u) as (A & B & C & D & E).
  assert (Hu : trimmed u) by apply strip_trimmed.
  destruct Hu as [Hh Hl].
  split; [split|split].
  - intros c x H. destruct (is_space c) eqn:Hc; [|reflexivity].
    destruct (C c x H Hc) as (d & y & Ed & Hd).
    rewrite (Hh d y Ed) in Hd. discriminate.
  - intros x c H. destruct (is_space c) eqn:Hc; [|reflexivity].
    destruct (D x c H Hc) as (y & d & Ed & Hd).
    rewrite (Hl y d Ed) in Hd. discriminate.
  - rewrite Forall_forall in A. exact A.
  - intros a c d b. apply single_spaced_spec. exact B.
Qed.

(** ** The other fields of a normalized record *)


Section Fields.
Context `{RT : Runtime}.






End Fields.


(** ** Further properties of the publisher *)

(** The line [ensure_topic] prints for an answer of the broker. *)
Definition topic_line (topic : str) (a : answer) : line :=
  match a with
  | Returned _ => LCreated topic
  | Failed TopicAlreadyExistsError => LExists topic
  | Failed e => LTopicWarning e
  end.

(** X8. [ensure_topic] asks once for the topic, with one partition and
    one replica, and never raises: a topic that exists already is
    reported as such and any other failure as a warning. *)
Theorem ensure_topic_never_raises :
  forall (world : trace -> call -> answer) (topic : str) (tr : trace),
    ensure_topic world topic tr
    = (Ok tt,
       tr ++ [Called (CreateTopics topic 1 1)
                     (world tr (CreateTopics topic 1 1));
              Printed (topic_line topic
                         (world tr (CreateTopics topic 1 1)))]).
Proof.
  intros world topic tr.
  unfold ensure_topic, IO.try_with, IO.bind, IO.do_call, IO.print.
  destruct (world tr (CreateTopics topic 1 1)) as [x|e].
  - rewrite <- app_assoc. reflexivity.
  - destruct e; rewrite <- app_assoc; reflexivity.
Qed.

(** X9. In the sending loop every record the cleaner kept is sent, as
    the message made of it and in the order of the records; a send that
    fails leaves exactly one failure line, which carries the title of
    its record; and the counter grows by the number of sends that
    succeeded. *)
Theorem send_failures_logged :
  forall (RT : Runtime) (world : trace -> call -> answer) (topic : str)
         (rs : list NormalizedRecord) (sent : nat) (tr0 : trace),
    let kept := filter keep (map (cleaned_record rs) rs) in
    exists tr1,
      send_loop world topic CLEANED_COLUMNS (map cleaned_cells kept) sent tr0
      = (Ok (sent + successes tr1)%nat, tr0 ++ tr1)
      /\ map fst (sends tr1) = map (fun c => (topic, message_of c)) kept
      /\ failed_titles tr1
         = map (fun x => c_title (fst x))
               (filter (fun x => negb (snd x))
                       (combine kept (map snd (sends tr1))))
      /\ (successes tr1 + List.length (failed_titles tr1))%nat
         = List.length kept.
Proof.
  intros RT world topic rs sent tr0 kept.
  destruct (send_loop_rows world topic CLEANED_COLUMNS sent tr0
              (kept_messages rs))
    as (tr1 & E & Hs & Hf & Hc & _).
  fold kept in E, Hs, Hf, Hc.
  exists tr1. split; [exact E|]. split.
  - rewrite Hs, map_map. reflexivity.
  - split.
    + rewrite Hf, combine_map_l, filter_of_map, map_map. reflexivity.
    + rewrite Hc. apply length_map.
Qed.

(** ** Extraction *)

(** The tables [extract_tables] returns, read off the list of table
    markups: each table that parses, tagged with its position among
    all the tables of the page. *)
Definition parsed_table (read_html : str -> res (list DataFrame))
           (ti : str * nat) : list DataFrame :=
  match read_html (fst ti) with
  | Ok (df :: _) => [tag_table df (snd ti)]
  | _ => []
  end.

Definition is_table_warning (e : event) : Prop :=
  match e with
  | Printed (LTableWarning _ _) => True
  | _ => False
  end.

Section Extraction.
Variable find_tables : str -> list str.
Variable read_html : str -> res (list DataFrame).

Lemma extract_loop_spec : forall tables i dfs tr,
  exists tr1,
    extract_loop read_html tables i dfs tr
    = (Ok (dfs ++ flat_map (parsed_table read_html)
                    (combine tables (seq i (List.length tables)))),
       tr ++ tr1)
    /\ Forall is_table_warning tr1
    /\ (List.length tr1
        + List.length (flat_map (parsed_table read_html)
                         (combine tables (seq i (List.length tables)))))%nat
       = List.length tables.
Proof.
  induction tables as [|t tables IH]; intros i dfs tr.
  - exists []. simpl. rewrite !app_nil_r. auto.
  - cbn [extract_loop List.length seq combine flat_map].
    unfold parsed_table at 1 3. cbn [fst snd].
    destruct (read_html t) as [[|df l]|e]; cbn [bind].
    + unfold IO.bind at 1. unfold IO.print at 1.
      destruct (IH (S i) dfs (tr ++ [Printed (LTableWarning i IndexError)]))
        as (tr1 & E & Hw & Hc).
      rewrite E. exists (Printed (LTableWarning i IndexError) :: tr1).
      repeat split.
      * rewrite <- app_assoc. reflexivity.
      * constructor; [exact I|exact Hw].
      * simpl. simpl in Hc. lia.
    + destruct (IH (S i) (dfs ++ [tag_table df i]) tr)
        as (tr1 & E & Hw & Hc).
      rewrite E. exists tr1. repeat split; auto.
      * rewrite <- app_assoc. reflexivity.
      * simpl. simpl in Hc. lia.
    + unfold IO.bind at 1. unfold IO.print at 1.
      destruct (IH (S i) dfs (tr ++ [Printed (LTableWarning i e)]))
        as (tr1 & E & Hw & Hc).
      rewrite E. exists (Printed (LTableWarning i e) :: tr1).
      repeat split.
      * rewrite <- app_assoc. reflexivity.
      * constructor; [exact I|exact Hw].
      * simpl. simpl in Hc. lia.
Qed.
End Extraction.

(** X10. [extract_tables] never raises: a table that does not parse is
    left out with one warning and the others are returned in page
    order, each tagged with its position among all the tables found,
    so the tags of the tables returned may have gaps. *)
Theorem extract_tables_skips :
  forall (find_tables : str -> list str)
         (read_html : str -> res (list DataFrame))
         (html : str) (tr : trace),
    let tables := find_tables html in
    let dfs := flat_map (parsed_table read_html)
                 (combine tables (seq 0 (List.length tables))) in
    exists tr1,
      extract_tables find_tables read_html html tr = (Ok dfs, tr ++ tr1)
      /\ Forall is_table_warning tr1
      /\ (List.length tr1 + List.length dfs)%nat = List.length tables.
Proof.
  intros find_tables read_html html tr tables dfs.
  unfold extract_tables.
  destruct (extract_loop_spec read_html (find_tables html) 0 [] tr)
    as (tr1 & E & Hw & Hc).
  exists tr1. split; [exact E|]. split; [exact Hw|exact Hc].
Qed.

(** X11. Tagging a table that has no column of that name adds the
    column [_source_table_index] last and writes the index in every
    row; the rows keep their cells. *)
Theorem tag_table_rows :
  forall (df : DataFrame) (i : nat),
    has_col df S_SOURCE_INDEX = false ->
    columns (tag_table df i) = columns df ++ [S_SOURCE_INDEX]
    /\ rows (tag_table df i)
       = map (fun row => row ++ [VInt (Z.of_nat i)]) (rows df).
Proof.
  intros df i H. unfold tag_table, col_set. unfold has_col in H.
  destruct (index_of S_SOURCE_INDEX (columns df)); [discriminate|].
  cbn [columns rows]. split; [reflexivity|].
  induction (rows df) as [|row l IH]; [reflexivity|].
  cbn [List.length repeat combine map fst snd]. rewrite IH. reflexivity.
Qed.

Lemma tag_table_rows_witness :
  has_col TABLE_A S_SOURCE_INDEX = false
  /\ columns (tag_table TABLE_A 0) = columns TABLE_A ++ [S_SOURCE_INDEX]
  /\ rows (tag_table TABLE_A 0)
     = map (fun row => row ++ [VInt (Z.of_nat 0)]) (rows TABLE_A).
Proof.
  assert (H : has_col TABLE_A S_SOURCE_INDEX = false) by reflexivity.
  split; [exact H|]. apply (tag_table_rows TABLE_A 0 H).
Defined.

(** ** How the publisher and the run can fail *)

Section PublisherShape.
Context `{RT : Runtime}.
Variable world : trace -> call -> answer.

End PublisherShape.




(** *** Traces only grow *)

Definition extends {A} (m : IO.IO A) : Prop :=
  forall tr, exists t1, snd (m tr) = tr ++ t1.

Lemma extends_ret {A} (a : A) : extends (IO.ret a).
Proof. intros tr. exists []. simpl. symmetry. apply app_nil_r. Qed.

Lemma extends_lift {A} (r : res A) : extends (IO.lift r).
Proof. intros tr. exists []. simpl. symmetry. apply app_nil_r. Qed.

Lemma extends_print l : extends (IO.print l).
Proof. intros tr. exists [Printed l]. reflexivity. Qed.

Lemma extends_do_call world c : extends (IO.do_call world c).
Proof. intros tr. eexists. reflexivity. Qed.

Lemma extends_bind {A B} (m : IO.IO A) (f : A -> IO.IO B) :
  extends m -> (forall a, extends (f a)) -> extends (IO.bind m f).
Proof.
  intros Hm Hf tr. unfold IO.bind.
  destruct (Hm tr) as [t1 E1].
  destruct (m tr) as [[a|e] tr']; simpl in E1; subst tr'.
  - destruct (Hf a (tr ++ t1)) as [t2 E2].
    exists (t1 ++ t2). rewrite E2, app_assoc. reflexivity.
  - exists t1. reflexivity.
Qed.

Lemma extends_try_with {A} (m : IO.IO A) (h : exn -> IO.IO A) :
  extends m -> (forall e, extends (h e)) -> extends (IO.try_with m h).
Proof.
  intros Hm Hh tr. unfold IO.try_with.
  destruct (Hm tr) as [t1 E1].
  destruct (m tr) as [[a|e] tr']; simpl in E1; subst tr'.
  - exists t1. reflexivity.
  - destruct (Hh e (tr ++ t1)) as [t2 E2].
    exists (t1 ++ t2). rewrite E2, app_assoc. reflexivity.
Qed.

Section RunFacts.
Context `{RT : Runtime}.
Variable world : trace -> call -> answer.
Variable find_tables : str -> list str.
Variable read_html : str -> res (list DataFrame).

Lemma extends_send_loop topic cols : forall rs sent,
  extends (send_loop world topic cols rs sent).
Proof.
  induction rs as [|row rs IH]; intros sent; cbn [send_loop].
  - apply extends_ret.
  - apply extends_bind; [apply extends_lift|]. intros msg.
    apply extends_bind; [|intros; apply IH].
    apply extends_try_with.
    + apply extends_bind; [apply extends_do_call|].
      intros; apply extends_ret.
    + intros e. apply extends_bind; [apply extends_print|].
      intros; apply extends_ret.
Qed.

Lemma extends_produce df bootstrap topic :
  extends (produce_to_kafka world df bootstrap topic).
Proof.
  unfold produce_to_kafka, ensure_topic.
  repeat first
    [ apply extends_bind | apply extends_try_with | apply extends_do_call
    | apply extends_print | apply extends_send_loop | apply extends_ret
    | intros ? ].
  destruct e; apply extends_print.
Qed.

(** The publishing step of [main] always returns. *)
Lemma publish_step_ok df tr :
  exists t1,
    IO.try_with
      (produce_to_kafka world df KAFKA_BOOTSTRAP TOPIC)
      (fun e =>
         _ <-- IO.print (LKafkaError e) ;;
         IO.print (LMakeSure KAFKA_BOOTSTRAP)) tr
    = (Ok tt, tr ++ t1).
Proof.
  unfold IO.try_with.
  destruct (extends_produce df KAFKA_BOOTSTRAP TOPIC tr) as [t1 E].
  destruct (produce_to_kafka world df KAFKA_BOOTSTRAP TOPIC tr)
    as [[[]|e] tr']; simpl in E; subst tr'.
  - exists t1. reflexivity.
  - exists (t1 ++ [Printed (LKafkaError e);
                   Printed (LMakeSure KAFKA_BOOTSTRAP)]).
    unfold IO.bind, IO.print. rewrite <- !app_assoc. reflexivity.
Qed.
End RunFacts.

(** ** The run as a whole *)

(** What the stages before the publisher leave in the trace, the
    successful write of the sink file apart. *)
Definition stage_event (e : event) : Prop :=
  match e with
  | Printed _ => True
  | Called (HttpGet _) _ => True
  | Called (WriteFile _ _) (Failed _) => True
  | _ => False
  end.

Definition broker_call (c : call) : bool :=
  match c with
  | AdminConnect _ _ | CreateTopics _ _ _ | ProducerConnect _ _
  | ProducerSend _ _ | ProducerFlush | ProducerClose => true
  | HttpGet _ | WriteFile _ _ => false
  end.

Lemma print_run l tr : IO.print l tr = (Ok tt, tr ++ [Printed l]).
Proof. reflexivity. Qed.

Lemma lift_run {A} (r : res A) tr : IO.lift r tr = (r, tr).
Proof. reflexivity. Qed.

Lemma warning_stage t : Forall is_table_warning t -> Forall stage_event t.
Proof.
  apply Forall_impl. intros [c a|l]; simpl; [tauto|]. destruct l; tauto.
Qed.

Lemma split_before {A} (P : A -> Prop) (w x : A) :
  forall pre0 post0 pre post,
    pre0 ++ w :: post0 = pre ++ x :: post ->
    Forall P pre0 -> ~ P x -> x <> w -> In w pre.
Proof.
  induction pre0 as [|p pre0 IH]; intros post0 pre post E HP Hx Hw.
  - destruct pre as [|q pre]; simpl in E; inversion E; subst.
    + congruence.
    + left. reflexivity.
  - inversion HP as [|? ? Hp HP']; subst.
    destruct pre as [|q pre]; simpl in E; inversion E; subst.
    + contradiction.
    + right. eapply IH; eauto.
Qed.

Section MainRun.
Context `{RT : Runtime}.
Variable world : trace -> call -> answer.
Variable find_tables : str -> list str.
Variable read_html : str -> res (list DataFrame).

Lemma fetch_html_run url tr :
  fetch_html world url tr
  = (match world (tr ++ [Printed LFetching]) (HttpGet url) with
     | Returned x => Ok x
     | Failed e => Raise e
     end,
     (tr ++ [Printed LFetching])
     ++ [Called (HttpGet url)
                (world (tr ++ [Printed LFetching]) (HttpGet url))]).
Proof. reflexivity. Qed.

(** A run of [main]: either it returns, and then the sink file was
    written after stage events only, or it raises, and then the trace
    holds stage events only. *)
Lemma main_run tr0 :
  exists res tr1,
    main world find_tables read_html tr0 = (res, tr0 ++ tr1)
    /\ ((res = Ok tt
         /\ exists f x pre post,
              tr1 = pre ++ Called (WriteFile OUTPUT_CSV f) (Returned x) :: post
              /\ Forall stage_event pre)
        \/ (exists e, res = Raise e /\ Forall stage_event tr1)).
Proof.
  unfold main.
  rewrite (bind_ok _ _ _ (print_run _ _)).
  set (trF := tr0 ++ [Printed LFetching]).
  destruct (world (trF ++ [Printed LFetching]) (HttpGet URL))
    as [html|e] eqn:EH.
  2:{ assert (EF : fetch_html world URL trF
                   = (Raise e, (trF ++ [Printed LFetching])
                               ++ [Called (HttpGet URL) (Failed e)])).
      { rewrite fetch_html_run, EH. reflexivity. }
      rewrite (bind_raise _ _ _ EF).
      exists (Raise e),
        ([Printed LFetching] ++ [Printed LFetching]
         ++ [Called (HttpGet URL) (Failed e)]).
      split; [subst trF; rewrite <- !app_assoc; reflexivity|].
      right. exists e. split; [reflexivity|]. repeat constructor. }
  assert (EF : fetch_html world URL trF
               = (Ok html, (trF ++ [Printed LFetching])
                           ++ [Called (HttpGet URL) (Returned html)])).
  { rewrite fetch_html_run, EH. reflexivity. }
  rewrite (bind_ok _ _ _ EF).
  rewrite (bind_ok _ _ _ (print_run _ _)).
  set (trX := (((trF ++ [Printed LFetching])
                ++ [Called (HttpGet URL) (Returned html)])
               ++ [Printed LExtracting])).
  destruct (extract_loop_spec read_html (find_tables html) 0 [] trX)
    as (trE & EE & HW & _).
  unfold extract_tables at 1.
  rewrite (bind_ok _ _ _ EE). cbn [app].
  set (dfs := flat_map (parsed_table read_html)
                (combine (find_tables html)
                   (seq 0 (List.length (find_tables html))))).
  rewrite (bind_ok _ _ _ (print_run _ _)).
  apply warning_stage in HW.
  destruct (unify_tables dfs) as [combined|e] eqn:EU.
  2:{ rewrite (bind_raise _ _ _ (lift_run _ _)).
      exists (Raise e),
        ([Printed LFetching] ++ [Printed LFetching]
         ++ [Called (HttpGet URL) (Returned html)]
         ++ [Printed LExtracting] ++ trE
         ++ [Printed (LFound (List.length dfs))]).
      split; [subst trX trF; rewrite <- !app_assoc; reflexivity|].
      right. exists e. split; [reflexivity|].
      repeat (apply Forall_app; split); try exact HW; repeat constructor. }
  rewrite (bind_ok _ _ _ (lift_run _ _)).
  rewrite (bind_ok _ _ _ (print_run _ _)).
  rewrite (bind_ok _ _ _ (print_run _ _)).
  destruct (clean_df combined) as [cleaned|e] eqn:EC.
  2:{ rewrite (bind_raise _ _ _ (lift_run _ _)).
      exists (Raise e),
        ([Printed LFetching] ++ [Printed LFetching]
         ++ [Called (HttpGet URL) (Returned html)]
         ++ [Printed LExtracting] ++ trE
         ++ [Printed (LFound (List.length dfs))]
         ++ [Printed (LCombined (List.length (rows combined)))]
         ++ [Printed LCleaning]).
      split; [subst trX trF; rewrite <- !app_assoc; reflexivity|].
      right. exists e. split; [reflexivity|].
      repeat (apply Forall_app; split); try exact HW; repeat constructor. }
  rewrite (bind_ok _ _ _ (lift_run _ _)).
  rewrite (bind_ok _ _ _ (print_run _ _)).
  set (low := if Nat.ltb (List.length (rows cleaned)) 20
              then [Printed LLowRows] else []).
  set (trC := (((((trX ++ trE)
                  ++ [Printed (LFound (List.length dfs))])
                 ++ [Printed (LCombined (List.length (rows combined)))])
                ++ [Printed LCleaning])
               ++ [Printed (LCleaned (List.length (rows cleaned)))])).
  assert (EL : (if Nat.ltb (List.length (rows cleaned)) 20
                then IO.print LLowRows else IO.ret tt) trC
               = (Ok tt, trC ++ low)).
  { subst low. destruct (Nat.ltb (List.length (rows cleaned)) 20).
    - reflexivity.
    - unfold IO.ret. rewrite app_nil_r. reflexivity. }
  rewrite (bind_ok _ _ _ EL).
  assert (Hlow : Forall stage_event low).
  { subst low. destruct (Nat.ltb _ 20); repeat constructor. }
  set (W := WriteFile OUTPUT_CSV (to_csv cleaned false)).
  destruct (world (trC ++ low) W) as [x|e] eqn:EW.
  2:{ rewrite (bind_raise _ _ _ (do_call_failed _ _ _ EW)).
      exists (Raise e),
        ([Printed LFetching] ++ [Printed LFetching]
         ++ [Called (HttpGet URL) (Returned html)]
         ++ [Printed LExtracting] ++ trE
         ++ [Printed (LFound (List.length dfs))]
         ++ [Printed (LCombined (List.length (rows combined)))]
         ++ [Printed LCleaning]
         ++ [Printed (LCleaned (List.length (rows cleaned)))]
         ++ low ++ [Called W (Failed e)]).
      split; [subst trC trX trF; rewrite <- !app_assoc; reflexivity|].
      right. exists e. split; [reflexivity|].
      repeat (apply Forall_app; split); try exact HW; try exact Hlow;
        repeat constructor. }
  rewrite (bind_ok _ _ _ (do_call_returned _ _ _ EW)).
  rewrite (bind_ok _ _ _ (print_run _ _)).
  destruct (publish_step_ok world cleaned
              (((trC ++ low) ++ [Called W (Returned x)])
               ++ [Printed (LSaved OUTPUT_CSV)])) as [t1 EP].
  rewrite EP.
  exists (Ok tt),
    (([Printed LFetching] ++ [Printed LFetching]
      ++ [Called (HttpGet URL) (Returned html)]
      ++ [Printed LExtracting] ++ trE
      ++ [Printed (LFound (List.length dfs))]
      ++ [Printed (LCombined (List.length (rows combined)))]
      ++ [Printed LCleaning]
      ++ [Printed (LCleaned (List.length (rows cleaned)))]
      ++ low)
     ++ Called W (Returned x) :: Printed (LSaved OUTPUT_CSV) :: t1).
  split.
  { subst trC trX trF. rewrite <- !app_assoc. reflexivity. }
  left. split; [reflexivity|].
  exists (to_csv cleaned false), x. eexists. eexists.
  split; [reflexivity|].
  repeat (apply Forall_app; split); try exact HW; try exact Hlow;
    repeat constructor.
Qed.
End MainRun.

(** X13. [main] returns normally exactly when the sink file has been
    written, whatever the broker does afterwards, and it calls the
    broker only after that; when it raises, nothing was written and
    the broker was not called. *)
Theorem main_outcome :
  forall (RT : Runtime) (world : trace -> call -> answer)
         (find_tables : str -> list str)
         (read_html : str -> res (list DataFrame)) (tr0 : trace),
    exists res tr1,
      main world find_tables read_html tr0 = (res, tr0 ++ tr1)
      /\ (res = Ok tt <->
          exists f x, In (Called (WriteFile OUTPUT_CSV f) (Returned x)) tr1)
      /\ (forall pre c a post,
            tr1 = pre ++ Called c a :: post -> broker_call c = true ->
            exists f x,
              In (Called (WriteFile OUTPUT_CSV f) (Returned x)) pre).
Proof.
  intros RT world find_tables read_html tr0.
  destruct (main_run world find_tables read_html tr0)
    as (res & tr1 & E & [(-> & f & x & pre0 & post0 & -> & Hpre)
                        | (e & -> & Hst)]).
  - exists (Ok tt),
      (pre0 ++ Called (WriteFile OUTPUT_CSV f) (Returned x) :: post0).
    split; [exact E|]. split.
    + split; [|reflexivity]. intros _. exists f, x.
      apply in_or_app. right. left. reflexivity.
    + intros pre c a post Et Hc. exists f, x.
      eapply (@split_before _ stage_event); eauto.
      * destruct c, a; simpl in *; try discriminate; tauto.
      * intros Heq. inversion Heq; subst. discriminate.
  - exists (Raise e), tr1. split; [exact E|]. split.
    + split; [discriminate|].
      intros (f & x & Hin). rewrite Forall_forall in Hst.
      exfalso. apply (Hst _ Hin).
    + intros pre c a post -> Hc. rewrite Forall_forall in Hst.
      exfalso.
      assert (Hin : In (Called c a) (pre ++ Called c a :: post))
        by (apply in_or_app; right; left; reflexivity).
      specialize (Hst _ Hin).
      destruct c, a; simpl in *; try discriminate; tauto.
Qed.

(** X14. When the page cannot be fetched [main] raises the exception of
    the fetch at once: it has printed its two announcements and asked
    for the page, and nothing else. *)
Theorem main_fetch_failure :
  forall (RT : Runtime) (world : trace -> call -> answer)
         (find_tables : str -> list str)
         (read_html : str -> res (list DataFrame)) (tr0 : trace) (e : exn),
    world ((tr0 ++ [Printed LFetching]) ++ [Printed LFetching]) (HttpGet URL)
    = Failed e ->
    main world find_tables read_html tr0
    = (Raise e,
       tr0 ++ [Printed LFetching; Printed LFetching;
               Called (HttpGet URL) (Failed e)]).
Proof.
  intros RT world find_tables read_html tr0 e H.
  unfold main.
  rewrite (bind_ok _ _ _ (print_run _ _)).
  assert (EF : fetch_html world URL (tr0 ++ [Printed LFetching])
               = (Raise e, ((tr0 ++ [Printed LFetching])
                            ++ [Printed LFetching])
                           ++ [Called (HttpGet URL) (Failed e)])).
  { rewrite fetch_html_run, H. reflexivity. }
  rewrite (bind_raise _ _ _ EF). rewrite <- !app_assoc. reflexivity.
Qed.

Lemma main_fetch_failure_witness :
  let world := fun (_ : trace) (_ : call) => Failed (OtherError 0) in
  world (([] ++ [Printed LFetching]) ++ [Printed LFetching]) (HttpGet URL)
  = Failed (OtherError 0)
  /\ @main ascii_runtime world (fun _ => []) (fun _ => Ok []) []
     = (Raise (OtherError 0),
        [] ++ [Printed LFetching; Printed LFetching;
               Called (HttpGet URL) (Failed (OtherError 0))]).
Proof.
  intros world. split; [reflexivity|].
  apply (@main_fetch_failure ascii_runtime world (fun _ => [])
           (fun _ => Ok []) [] (OtherError 0) eq_refl).
Defined.

(** ** The sink file, as the run writes it *)

(** The writes of a trace. *)
Definition is_write (e : event) : bool :=
  match e with
  | Called (WriteFile _ _) _ => true
  | _ => false
  end.

Definition no_write (e : event) : Prop := is_write e = false.

(** A computation that only adds events that are no writes. *)
Definition writes_nothing {A} (m : IO.IO A) : Prop :=
  forall tr, exists t1, snd (m tr) = tr ++ t1 /\ Forall no_write t1.

Lemma writes_nothing_ret {A} (a : A) : writes_nothing (IO.ret a).
Proof.
  intros tr. exists []. simpl. split; [symmetry; apply app_nil_r|constructor].
Qed.

Lemma writes_nothing_lift {A} (r : res A) : writes_nothing (IO.lift r).
Proof.
  intros tr. exists []. simpl. split; [symmetry; apply app_nil_r|constructor].
Qed.

Lemma writes_nothing_print l : writes_nothing (IO.print l).
Proof.
  intros tr. exists [Printed l]. split; [reflexivity|].
  repeat constructor.
Qed.

Lemma writes_nothing_do_call world c :
  (forall a, no_write (Called c a)) -> writes_nothing (IO.do_call world c).
Proof.
  intros H tr. eexists. split; [reflexivity|]. repeat constructor. apply H.
Qed.

Lemma writes_nothing_bind {A B} (m : IO.IO A) (f : A -> IO.IO B) :
  writes_nothing m -> (forall a, writes_nothing (f a)) ->
  writes_nothing (IO.bind m f).
Proof.
  intros Hm Hf tr. unfold IO.bind.
  destruct (Hm tr) as (t1 & E1 & H1).
  destruct (m tr) as [[a|e] tr']; simpl in E1; subst tr'.
  - destruct (Hf a (tr ++ t1)) as (t2 & E2 & H2).
    exists (t1 ++ t2). rewrite E2, app_assoc. split; [reflexivity|].
    apply Forall_app. auto.
  - exists t1. auto.
Qed.

Lemma writes_nothing_try_with {A} (m : IO.IO A) (h : exn -> IO.IO A) :
  writes_nothing m -> (forall e, writes_nothing (h e)) ->
  writes_nothing (IO.try_with m h).
Proof.
  intros Hm Hh tr. unfold IO.try_with.
  destruct (Hm tr) as (t1 & E1 & H1).
  destruct (m tr) as [[a|e] tr']; simpl in E1; subst tr'.
  - exists t1. auto.
  - destruct (Hh e (tr ++ t1)) as (t2 & E2 & H2).
    exists (t1 ++ t2). rewrite E2, app_assoc. split; [reflexivity|].
    apply Forall_app. auto.
Qed.

Lemma filter_no_write tr : Forall no_write tr -> filter is_write tr = [].
Proof.
  induction 1 as [|e tr He _ IH]; [reflexivity|].
  simpl. rewrite He. exact IH.
Qed.

Lemma warning_no_write t : Forall is_table_warning t -> Forall no_write t.
Proof.
  apply Forall_impl. intros [c a|l]; simpl; [tauto|]. reflexivity.
Qed.

Section SinkRun.
Context `{RT : Runtime}.
Variable world : trace -> call -> answer.
Variable find_tables : str -> list str.
Variable read_html : str -> res (list DataFrame).

Lemma writes_nothing_send_loop topic cols : forall rs sent,
  writes_nothing (send_loop world topic cols rs sent).
Proof.
  induction rs as [|row rs IH]; intros sent; cbn [send_loop].
  - apply writes_nothing_ret.
  - apply writes_nothing_bind; [apply writes_nothing_lift|]. intros msg.
    apply writes_nothing_bind; [|intros; apply IH].
    apply writes_nothing_try_with.
    + apply writes_nothing_bind;
        [apply writes_nothing_do_call; reflexivity|].
      intros; apply writes_nothing_ret.
    + intros e. apply writes_nothing_bind; [apply writes_nothing_print|].
      intros; apply writes_nothing_ret.
Qed.

Lemma writes_nothing_produce df bootstrap topic :
  writes_nothing (produce_to_kafka world df bootstrap topic).
Proof.
  unfold produce_to_kafka, ensure_topic.
  repeat first
    [ apply writes_nothing_bind | apply writes_nothing_try_with
    | apply writes_nothing_do_call; reflexivity
    | apply writes_nothing_print | apply writes_nothing_send_loop
    | apply writes_nothing_ret | intros ? ].
  destruct e; apply writes_nothing_print.
Qed.

(** The publishing step of [main] returns and writes no file. *)
Lemma publish_step_no_write df tr :
  exists t1,
    IO.try_with
      (produce_to_kafka world df KAFKA_BOOTSTRAP TOPIC)
      (fun e =>
         _ <-- IO.print (LKafkaError e) ;;
         IO.print (LMakeSure KAFKA_BOOTSTRAP)) tr
    = (Ok tt, tr ++ t1)
    /\ Forall no_write t1.
Proof.
  unfold IO.try_with.
  destruct (writes_nothing_produce df KAFKA_BOOTSTRAP TOPIC tr)
    as (t1 & E & H1).
  destruct (produce_to_kafka world df KAFKA_BOOTSTRAP TOPIC tr)
    as [[[]|e] tr']; simpl in E; subst tr'.
  - exists t1. auto.
  - exists (t1 ++ [Printed (LKafkaError e);
                   Printed (LMakeSure KAFKA_BOOTSTRAP)]).
    split.
    + unfold IO.bind, IO.print. rewrite <- !app_assoc. reflexivity.
    + apply Forall_app. split; [exact H1|]. repeat constructor.
Qed.

(** A run of [main] in which the page is fetched and the cleaner
    returns: the cleaned frame is written once, without index, under
    the name of the sink file. *)
Lemma main_written tr0 html combined cleaned :
  let tables := find_tables html in
  let dfs := flat_map (parsed_table read_html)
               (combine tables (seq 0 (List.length tables))) in
  world ((tr0 ++ [Printed LFetching]) ++ [Printed LFetching]) (HttpGet URL)
  = Returned html ->
  unify_tables dfs = Ok combined ->
  clean_df combined = Ok cleaned ->
  exists res pre a post,
    main world find_tables read_html tr0
    = (res,
       tr0 ++ pre
       ++ Called (WriteFile OUTPUT_CSV (to_csv cleaned false)) a :: post)
    /\ Forall no_write pre /\ Forall no_write post.
Proof.
  intros tables dfs EH EU EC.
  unfold main.
  rewrite (bind_ok _ _ _ (print_run _ _)).
  set (trF := tr0 ++ [Printed LFetching]) in *.
  assert (EF : fetch_html world URL trF
               = (Ok html, (trF ++ [Printed LFetching])
                           ++ [Called (HttpGet URL) (Returned html)])).
  { rewrite fetch_html_run, EH. reflexivity. }
  rewrite (bind_ok _ _ _ EF).
  rewrite (bind_ok _ _ _ (print_run _ _)).
  set (trX := (((trF ++ [Printed LFetching])
                ++ [Called (HttpGet URL) (Returned html)])
               ++ [Printed LExtracting])).
  destruct (extract_loop_spec read_html (find_tables html) 0 [] trX)
    as (trE & EE & HW & _).
  unfold extract_tables at 1.
  rewrite (bind_ok _ _ _ EE). cbn [app]. fold tables. fold dfs.
  rewrite (bind_ok _ _ _ (print_run _ _)).
  apply warning_no_write in HW.
  rewrite EU.
  rewrite (bind_ok _ _ _ (lift_run _ _)).
  rewrite (bind_ok _ _ _ (print_run _ _)).
  rewrite (bind_ok _ _ _ (print_run _ _)).
  rewrite EC.
  rewrite (bind_ok _ _ _ (lift_run _ _)).
  rewrite (bind_ok _ _ _ (print_run _ _)).
  set (low := if Nat.ltb (List.length (rows cleaned)) 20
              then [Printed LLowRows] else []).
  set (trC := (((((trX ++ trE)
                  ++ [Printed (LFound (List.length dfs))])
                 ++ [Printed (LCombined (List.length (rows combined)))])
                ++ [Printed LCleaning])
               ++ [Printed (LCleaned (List.length (rows cleaned)))])).
  assert (EL : (if Nat.ltb (List.length (rows cleaned)) 20
                then IO.print LLowRows else IO.ret tt) trC
               = (Ok tt, trC ++ low)).
  { subst low. destruct (Nat.ltb (List.length (rows cleaned)) 20).
    - reflexivity.
    - unfold IO.ret. rewrite app_nil_r. reflexivity. }
  rewrite (bind_ok _ _ _ EL).
  assert (Hlow : Forall no_write low).
  { subst low. destruct (Nat.ltb _ 20); repeat constructor. }
  set (W := WriteFile OUTPUT_CSV (to_csv cleaned false)).
  set (pre := [Printed LFetching] ++ [Printed LFetching]
              ++ [Called (HttpGet URL) (Returned html)]
              ++ [Printed LExtracting] ++ trE
              ++ [Printed (LFound (List.length dfs))]
              ++ [Printed (LCombined (List.length (rows combined)))]
              ++ [Printed LCleaning]
              ++ [Printed (LCleaned (List.length (rows cleaned)))]
              ++ low).
  assert (Hpre : Forall no_write pre).
  { subst pre.
    repeat (apply Forall_app; split); try exact HW; try exact Hlow;
      repeat constructor. }
  assert (Etr : trC ++ low = tr0 ++ pre).
  { subst trC trX trF pre. rewrite <- !app_assoc. reflexivity. }
  destruct (world (trC ++ low) W) as [x|e] eqn:EW.
  - rewrite (bind_ok _ _ _ (do_call_returned _ _ _ EW)).
    rewrite (bind_ok _ _ _ (print_run _ _)).
    destruct (publish_step_no_write cleaned
                (((trC ++ low) ++ [Called W (Returned x)])
                 ++ [Printed (LSaved OUTPUT_CSV)])) as (t1 & EP & H1).
    rewrite EP.
    exists (Ok tt), pre, (Returned x), (Printed (LSaved OUTPUT_CSV) :: t1).
    split.
    + rewrite Etr, <- !app_assoc. reflexivity.
    + split; [exact Hpre|]. constructor; [reflexivity|exact H1].
  - rewrite (bind_raise _ _ _ (do_call_failed _ _ _ EW)).
    exists (Raise e), pre, (Failed e), [].
    split.
    + rewrite Etr, <- !app_assoc. reflexivity.
    + split; [exact Hpre|constructor].
Qed.
End SinkRun.

(** The two tables of the scenario as the page and its parser give
    them. *)
Definition SCENARIO_WORLD : trace -> call -> answer :=
  fun _ _ => Returned [].

Definition SCENARIO_FIND (html : str) : list str :=
  [of_string "A"; of_string "B"].

Definition SCENARIO_READ (table : str) : res (list DataFrame) :=
  if str_eqb table (of_string "A") then Ok [TABLE_A] else Ok [TABLE_B].

(** C8 (amended). When the page is fetched and its tables have a row,
    [main] writes exactly one file, [cleaned_data.csv]: a header of the
    seven columns title, date, viewers, network, title_clean,
    viewers_millions, year and no other, so neither the source-table
    index of the extraction nor a row index, and one line of seven
    cells for each record the cleaner returns. *)
Theorem sink_columns :
  forall (RT : Runtime) (world : trace -> call -> answer)
         (find_tables : str -> list str)
         (read_html : str -> res (list DataFrame))
         (tr0 : trace) (html : str),
    let tables := find_tables html in
    let dfs := flat_map (parsed_table read_html)
                 (combine tables (seq 0 (List.length tables))) in
    let rs := typed_records (map normalized_record (all_rows dfs)) in
    let kept := filter keep (map (cleaned_record rs) rs) in
    world ((tr0 ++ [Printed LFetching]) ++ [Printed LFetching]) (HttpGet URL)
    = Returned html ->
    all_rows dfs <> [] ->
    exists res tr1 content a,
      main world find_tables read_html tr0 = (res, tr0 ++ tr1)
      /\ filter is_write tr1 = [Called (WriteFile OUTPUT_CSV content) a]
      /\ header content = CLEANED_COLUMNS
      /\ existsb (str_eqb S_SOURCE_INDEX) (header content) = false
      /\ body content = map cleaned_cells kept
      /\ Forall (fun cells => List.length cells
                              = List.length (header content))
                (body content).
Proof.
  intros RT world find_tables read_html tr0 html tables dfs rs kept EH Hr.
  destruct (clean_unified_ok dfs Hr) as (combined & EU & EC).
  fold rs in EC. fold kept in EC.
  destruct (main_written world find_tables read_html tr0 EH EU EC)
    as (res & pre & a & post & E & Hpre & Hpost).
  set (content := to_csv (frame CLEANED_COLUMNS cleaned_cells kept) false) in *.
  exists res, (pre ++ Called (WriteFile OUTPUT_CSV content) a :: post),
    content, a.
  split; [exact E|]. split.
  - rewrite filter_app. cbn [filter is_write].
    rewrite (filter_no_write Hpre), (filter_no_write Hpost). reflexivity.
  - split; [reflexivity|]. split; [reflexivity|]. split; [reflexivity|].
    cbn [to_csv body frame rows]. apply Forall_forall.
    intros cells Hin. apply in_map_iff in Hin as (c & <- & _). reflexivity.
Qed.

Lemma sink_columns_witness :
  let tables := SCENARIO_FIND [] in
  let dfs := flat_map (parsed_table SCENARIO_READ)
               (combine tables (seq 0 (List.length tables))) in
  let rs := typed_records
              (map (@normalized_record ascii_runtime) (all_rows dfs)) in
  let kept := filter keep (map (@cleaned_record ascii_runtime rs) rs) in
  SCENARIO_WORLD (([] ++ [Printed LFetching]) ++ [Printed LFetching])
    (HttpGet URL) = Returned []
  /\ all_rows dfs <> []
  /\ exists res tr1 content a,
       @main ascii_runtime SCENARIO_WORLD SCENARIO_FIND SCENARIO_READ []
       = (res, [] ++ tr1)
       /\ filter is_write tr1 = [Called (WriteFile OUTPUT_CSV content) a]
       /\ header content = CLEANED_COLUMNS
       /\ existsb (str_eqb S_SOURCE_INDEX) (header content) = false
       /\ body content = map cleaned_cells kept
       /\ Forall (fun cells => List.length cells
                               = List.length (header content))
                 (body content).
Proof.
  intros tables dfs rs kept.
  assert (H1 : SCENARIO_WORLD
                 (([] ++ [Printed LFetching]) ++ [Printed LFetching])
                 (HttpGet URL) = Returned []) by reflexivity.
  assert (H2 : all_rows dfs <> []) by (vm_compute; discriminate).
  split; [exact H1|]. split; [exact H2|].
  apply (@sink_columns ascii_runtime SCENARIO_WORLD SCENARIO_FIND
           SCENARIO_READ [] [] H1 H2).
Defined.
